(** * Verification of the docgen compiler driver

    Shallow embedding of [packages/docgen/src/compiler.ts]: the recursive
    loader of compiler options ([loadOptions]) and the driver ([main]) that
    discovers API references, builds one document per reference, sorts the
    documents, and writes one markdown file per document plus the
    [mkdocs.yml] manifest.

    JavaScript strings are [string]; objects used as dictionaries
    (compiler options) are [gmap string JsValue]; thrown values are
    [JsError]; the effects of [main] (chdir, program creation, file
    system requests, console and exit status) are recorded in a trace that
    is threaded through a small state-and-exception monad. *)

From Stdlib Require Import String Ascii ZArith List Permutation Sorted Lia.
From stdpp Require Import base option list strings gmap fin_maps.
Import ListNotations.


(** ** Strings *)

Module Str.

Definition slash : ascii := "/"%char.

(** [parts s] is [s.split('/')]: the maximal runs between separators, so
    that [parts "a//b" = ["a"; ""; "b"]] and [parts "" = [""]]. *)
Fixpoint parts (s : string) : list string :=
  match s with
  | EmptyString => [EmptyString]
  | String c rest =>
      if Ascii.eqb c slash then EmptyString :: parts rest
      else match parts rest with
           | [] => [String c EmptyString]
           | p :: ps => String c p :: ps
           end
  end.

(** [has_slash s] holds when [s] contains a path separator. *)
Fixpoint has_slash (s : string) : bool :=
  match s with
  | EmptyString => false
  | String c rest => Ascii.eqb c slash || has_slash rest
  end.

(** [s.startsWith(p)] *)
Definition startsWith (p s : string) : bool := String.prefix p s.

(** [s.endsWith('/')] *)
Fixpoint ends_with_slash (s : string) : bool :=
  match s with
  | EmptyString => false
  | String c EmptyString => Ascii.eqb c slash
  | String _ rest => ends_with_slash rest
  end.

(** [xs.join(sep)] *)
Definition join (sep : string) (xs : list string) : string :=
  String.concat sep xs.

(** The line feed. *)
Definition newline : string := String "010"%char EmptyString.

End Str.

(** ** The POSIX flavour of Node's [path] module

    [normalizeString], [normalize], [join], [resolve] and [dirname] as in
    Node's [lib/path.js] for [path.posix]: the separator is the forward
    slash. *)

Module Path.

(** One step of [normalizeString]: [stack] holds the segments kept so
    far, innermost first. *)
Definition push_segment (allowAboveRoot : bool) (stack : list string)
    (seg : string) : list string :=
  if String.eqb seg "" then stack
  else if String.eqb seg "." then stack
  else if String.eqb seg ".." then
    match stack with
    | top :: below =>
        if String.eqb top ".." then
          (if allowAboveRoot then ".." :: stack else stack)
        else below
    | [] => if allowAboveRoot then [".."] else []
    end
  else seg :: stack.

Definition normalize_stack (allowAboveRoot : bool) (segs : list string)
    : list string :=
  fold_left (push_segment allowAboveRoot) segs [].

Definition normalizeString (path : string) (allowAboveRoot : bool) : string :=
  Str.join "/" (rev (normalize_stack allowAboveRoot (Str.parts path))).

(** [path.charCodeAt(0) === CHAR_FORWARD_SLASH] *)
Definition isAbsolute (path : string) : bool :=
  match path with
  | String c _ => Ascii.eqb c Str.slash
  | EmptyString => false
  end.

Definition normalize (path : string) : string :=
  if String.eqb path "" then "."
  else
    let absolute := isAbsolute path in
    let trailing := Str.ends_with_slash path in
    let p := normalizeString path (negb absolute) in
    if String.eqb p "" then
      (if absolute then "/" else if trailing then "./" else ".")
    else
      let p := if trailing then p +:+ "/" else p in
      if absolute then "/" +:+ p else p.

Definition nonempty (s : string) : bool := negb (String.eqb s "").

Definition join (args : list string) : string :=
  match filter (fun a => Is_true (nonempty a)) args with
  | [] => "."
  | kept => normalize (Str.join "/" kept)
  end.

(** [resolve]: arguments are taken from the right until an absolute one
    is met; the working directory is used when none is. *)
Fixpoint resolve_from (args_rev : list string) (cwd : string)
    (acc : string) : string * bool :=
  match args_rev with
  | [] => if String.eqb cwd "" then (acc, false)
          else (cwd +:+ "/" +:+ acc, isAbsolute cwd)
  | a :: more =>
      if String.eqb a "" then resolve_from more cwd acc
      else if isAbsolute a then (a +:+ "/" +:+ acc, true)
      else resolve_from more cwd (a +:+ "/" +:+ acc)
  end.

Definition resolve (cwd : string) (args : list string) : string :=
  let '(p, absolute) := resolve_from (rev args) cwd "" in
  let p := normalizeString p (negb absolute) in
  if absolute then "/" +:+ p
  else if String.eqb p "" then "." else p.

(** [dirname]: drop trailing separators, then everything from the last
    separator on (a separator at index 0 is the root and stays). *)
Fixpoint drop_last_segment (rev_chars : list ascii) (matchedSlash : bool)
    : option (list ascii) :=
  match rev_chars with
  | [] => None
  | [_] => None
  | c :: before =>
      if Ascii.eqb c Str.slash then
        if matchedSlash then drop_last_segment before true
        else Some before
      else drop_last_segment before false
  end.

Definition dirname (path : string) : string :=
  if String.eqb path "" then "."
  else
    let hasRoot := isAbsolute path in
    match drop_last_segment (rev (list_ascii_of_string path)) true with
    | None => if hasRoot then "/" else "."
    | Some before =>
        match before with
        | [_] => if hasRoot then "//" else string_of_list_ascii (rev before)
        | _ => string_of_list_ascii (rev before)
        end
    end.

End Path.

(** ** JavaScript values, errors and compiler options *)

(** The JSON values a configuration file can hold. *)
#[warnings="-register-all"] Inductive JsValue : Type :=
  | VNull
  | VBool (b : bool)
  | VNum (n : Z)
  | VStr (s : string)
  | VArr (items : list JsValue)
  | VObj (fields : list (string * JsValue)).

(** [ts.CompilerOptions]: an object used as a dictionary from option
    names to values. *)
Abbreviation Options := (gmap string JsValue).

(** A thrown [Error] object. *)
Record JsError : Type := mkJsError {
  message : string;
  stack : string
}.

(** What [require(path)] yields for a configuration file: [extends] and
    [compilerOptions] are [None] when the property is absent
    ([undefined]). *)
Record Config : Type := mkConfig {
  extends : option string;
  compilerOptions : option Options
}.

(** Object spread [{ ...o }] of a value that may be [undefined]. *)
Definition spread (o : option Options) : Options := default ∅ o.

(** [{ ...parent, ...child }]: the keys of both, the child's value where
    both have the key. *)
Definition spread2 (parent child : option Options) : Options :=
  spread child ∪ spread parent.

(** Outcome of running a piece of the program: it returns, it throws, or
    the evaluation does not finish within the fuel given. *)
Inductive Outcome (A : Type) : Type :=
  | Returned (a : A)
  | Thrown (e : JsError)
  | Diverged.
Arguments Returned {A} a.
Arguments Thrown {A} e.
Arguments Diverged {A}.

(** ** Documents *)

Record SourceFile : Type := mkSourceFile { fileName : string }.

(** A discovered exported factory call; [main] reads [source.fileName]
    only, [detail] stands for what the locator and the generator keep in
    it. *)
Record ApiInstance : Type := mkApiInstance {
  source : SourceFile;
  detail : string
}.

(** A built document; [main] reads [id] and [name], [body] stands for the
    fields only the printer reads. *)
Record ApiDoc : Type := mkApiDoc {
  id : string;
  name : string;
  body : string
}.

(** The program handed to the TypeScript compiler API. *)
Record Program : Type := mkProgram {
  rootNames : list string;
  programOptions : Options
}.

(** ** The environment of a run

    Everything [compiler.ts] imports or reads from its surroundings: the
    module loader, the collaborators under [./docgen/] (their code is not
    part of this file, [main] only calls them), and the file system. A
    file-system oracle answers [None] when the request succeeds and
    [Some e] when it fails with [e]. *)
Record Env : Type := mkEnv {
  dirname__ : string;                       (* __dirname *)
  cwd : string;                             (* process.cwd() at start *)
  require_ : string -> JsError + Config;    (* require(path) *)
  frames : string;                          (* stack frames of an Error made in main *)
  getExportedType : Program -> string -> string -> JsError + string;
  findExportedInstances :
    Program -> string -> list string -> JsError + list ApiInstance;
  toDoc : Program -> string -> string -> ApiInstance -> JsError + ApiDoc;
  print : ApiDoc -> string;
  ensureDirSync : string -> option JsError;
  awaitWrites : list (string * string) -> option JsError;  (* Promise.all *)
  writeFileSync : string -> string -> string -> option JsError
}.

(** ** loadOptions *)

(** The path handed to the recursive call: a parent starting with a dot is
    taken relative to the directory of the child configuration. *)
Definition parentPath (path parent : string) : string :=
  if Str.startsWith "." parent
  then Path.join [Path.dirname path; parent]
  else parent.

(** [!parent]: [undefined] and the empty string are falsy. *)
Definition declaredParent (config : Config) : option string :=
  match extends config with
  | Some parent => if String.eqb parent "" then None else Some parent
  | None => None
  end.

Fixpoint loadOptions (env : Env) (fuel : nat) (path : string)
    : Outcome (option Options) :=
  match fuel with
  | O => Diverged
  | S fuel' =>
      match require_ env path with
      | inl e => Thrown e
      | inr config =>
          match declaredParent config with
          | None => Returned (compilerOptions config)
          | Some parent =>
              match loadOptions env fuel' (parentPath path parent) with
              | Returned parentOptions =>
                  Returned (Some (spread2 parentOptions (compilerOptions config)))
              | Thrown e => Thrown e
              | Diverged => Diverged
              end
          end
      end
  end.

(** ** The ordering selector and [Array.prototype.sort] *)

Module Ordering.

(** ASCII lower-casing of one character. *)
Definition lower_char (c : ascii) : ascii :=
  let n := N_of_ascii c in
  if ((65 <=? n) && (n <=? 90))%N then ascii_of_N (n + 32) else c.

Fixpoint lower (s : string) : string :=
  match s with
  | EmptyString => EmptyString
  | String c rest => String (lower_char c) (lower rest)
  end.

Definition sign (c : comparison) : Z :=
  match c with Lt => -1 | Eq => 0 | Gt => 1 end.

Section Selector.
Context {T : Type}.

(** Modelled from the spec: [./docgen/sortSelector] is imported by
    [compiler.ts] but its file is not among the sources. Section 4.3
    gives its contract: [sortSelector(projection)] is a comparator
    whose key is [projection(item)], compared case-insensitively as a
    sequence of code points. The comparator is stated for any case
    normalisation [fold]; byte-wise comparison of UTF-8 text is
    code-point comparison. *)
Definition sortSelectorWith (fold : string -> string)
    (projection : T -> string) (a b : T) : Z :=
  sign (String.compare (fold (projection a)) (fold (projection b))).

(** [xs.sort(compare)]: ECMAScript requires the sort to be stable; an
    element is placed after the elements it does not precede. *)
Fixpoint insertSorted (compare : T -> T -> Z) (x : T) (sorted : list T)
    : list T :=
  match sorted with
  | [] => [x]
  | y :: rest =>
      if (compare x y <=? 0)%Z then x :: y :: rest
      else y :: insertSorted compare x rest
  end.

Definition arraySort (compare : T -> T -> Z) (xs : list T) : list T :=
  fold_right (insertSorted compare) [] xs.

(** [a] may stand before [b]: the comparator does not answer a
    positive number. *)
Definition precedes (compare : T -> T -> Z) (a b : T) : Prop :=
  (compare a b <= 0)%Z.

(** [a] and [b] are tied: the comparator answers zero. *)
Definition tied (compare : T -> T -> Z) (a b : T) : Prop :=
  compare a b = 0%Z.

#[global] Instance tied_dec compare a b : Decision (tied compare a b).
Proof. unfold tied. apply _. Defined.

End Selector.

(** The selector as [main] uses it, with the case normalisation of the
    ASCII letters. *)
Definition sortSelector {T : Type} (projection : T -> string)
    : T -> T -> Z :=
  sortSelectorWith lower projection.

End Ordering.

(** ** Effects of [main] *)

(** What [console.error] is given by [error.stack || error]. *)
Inductive Logged : Type :=
  | LogText (text : string)
  | LogError (e : JsError).

Inductive Event : Type :=
  | Chdir (dir : string)
  | CreateProgram (files : list string) (options : Options)
  | EnsureDirSync (dir : string)
  | WriteFile (path data : string)
  | WriteFileSync (path data encoding : string)
  | ConsoleError (what : Logged)
  | Exit (code : Z).

(** A computation over the trace of events issued so far. *)
Definition M (A : Type) : Type := list Event -> list Event * Outcome A.

Definition ret {A} (a : A) : M A := fun tr => (tr, Returned a).

Definition bind {A B} (c : M A) (k : A -> M B) : M B :=
  fun tr =>
    match c tr with
    | (tr', Returned a) => k a tr'
    | (tr', Thrown e) => (tr', Thrown e)
    | (tr', Diverged) => (tr', Diverged)
    end.

Definition throw {A} (e : JsError) : M A := fun tr => (tr, Thrown e).

Definition emit (ev : Event) : M unit := fun tr => (tr ++ [ev], Returned tt).

Definition liftOutcome {A} (o : Outcome A) : M A := fun tr => (tr, o).

(** A call that either throws or returns. *)
Definition call {A} (r : JsError + A) : M A :=
  match r with inl e => throw e | inr a => ret a end.

(** A request to the file system: recorded, then it succeeds or throws. *)
Definition request (ev : Event) (answer : option JsError) : M unit :=
  fun tr =>
    match answer with
    | None => (tr ++ [ev], Returned tt)
    | Some e => (tr ++ [ev], Thrown e)
    end.

#[global] Instance M_ret : MRet M := @ret.
#[global] Instance M_bind : MBind M := fun A B k c => bind c k.

(** [new Error(message)] as raised inside [main]. *)
Definition newError (env : Env) (kind msg : string) : JsError :=
  {| message := msg; stack := kind +:+ ": " +:+ msg +:+ frames env |}.

(** [xs.map(f)] for a callback that may throw: the first throw ends the
    traversal. *)
Fixpoint mapThrowing {A B} (f : A -> JsError + B) (xs : list A)
    : JsError + list B :=
  match xs with
  | [] => inr []
  | x :: rest =>
      match f x with
      | inl e => inl e
      | inr y =>
          match mapThrowing f rest with
          | inl e => inl e
          | inr ys => inr (y :: ys)
          end
      end
  end.

(** The [writeFile] requests for a list of paths and contents. *)
Definition writeEvents (writes : list (string * string)) : list Event :=
  map (fun w => WriteFile (fst w) (snd w)) writes.

(** ** main *)

Section Main.
Variable env : Env.

Definition rootDir : string := Path.resolve (cwd env) [dirname__ env; ".."].
Definition srcDir : string :=
  Path.resolve (cwd env) [rootDir; ".."; "core-api"; "src"].
Definition entrypoint : string := Path.resolve (cwd env) [srcDir; "index.ts"].
Definition apiRefsDir : string := Path.resolve (cwd env) [rootDir; "dist"].
Definition mkdocsYaml : string := Path.resolve (cwd env) [apiRefsDir; "mkdocs.yml"].

(** Lines 55-57: the option set given to [ts.createProgram]. *)
Definition adjustOptions (options : Options) : Options :=
  <["noEmit" := VBool true]>
    (<["removeComments" := VBool false]>
       (delete "moduleResolution" options)).

(** Lines 73-81: the callback of [apis.map]. *)
Definition buildDoc (program : Program) (api : ApiInstance)
    : JsError + ApiDoc :=
  match toDoc env program rootDir srcDir api with
  | inr doc => inr doc
  | inl error =>
      inl (newError env "Error"
             ("Doc generation failed for API in " +:+ fileName (source api)
                +:+ ", " +:+ stack error))
  end.

(** Lines 72-82. *)
Definition buildDocs (program : Program) (apis : list ApiInstance)
    : JsError + list ApiDoc :=
  match mapThrowing (buildDoc program) apis with
  | inl e => inl e
  | inr docs => inr (Ordering.arraySort (Ordering.sortSelector id) docs)
  end.

(** Line 94: the path of the markdown file of a document. *)
Definition docPath (apiDoc : ApiDoc) : string :=
  Path.join [apiRefsDir; "docs"; name apiDoc +:+ ".md"].

(** Lines 91-95: one [writeFile] request per document. *)
Definition docWrites (apiDocs : list ApiDoc) : list (string * string) :=
  map (fun apiDoc => (docPath apiDoc, print env apiDoc)) apiDocs.

(** Line 103. *)
Definition navEntry (apiDoc : ApiDoc) : string :=
  "  - " +:+ id apiDoc +:+ ": '" +:+ name apiDoc +:+ ".md'".

(** Lines 100-104. *)
Definition manifest (apiDocs : list ApiDoc) : string :=
  Str.join Str.newline
    ("site_name: api-references" :: "nav:" :: map navEntry apiDocs).

(** Lines 91-95: every [writeFile] is started before any is awaited. *)
Definition issueWrites (writes : list (string * string)) : M unit :=
  fun tr => (tr ++ writeEvents writes, Returned tt).

Definition tsconfig : string := "../../../tsconfig.json".

(** Lines 51-68: options, program and discovery. [process.chdir] moves
    to [rootDir], the parent of the directory of the script. *)
Definition discover (fuel : nat) : M (Program * list ApiInstance) :=
  emit (Chdir rootDir) ;;
  loaded ← liftOutcome (loadOptions env fuel tsconfig) ;
  options ← match loaded with
             | Some options => ret (adjustOptions options)
             | None =>
                 throw (newError env "TypeError"
                          "Cannot convert undefined or null to object")
             end ;
  emit (CreateProgram [entrypoint] options) ;;
  let program := mkProgram [entrypoint] options in
  factory ← call (getExportedType env program entrypoint "createApiRef") ;
  apis ← call (findExportedInstances env program factory [srcDir]) ;
  ret (program, apis).

Definition docsDir : string := Path.resolve rootDir [apiRefsDir; "docs"].

(** Lines 70-106: build, sort, write. [awaitWrites] is the outcome of
    [await Promise.all(...)]: fulfilled when every write succeeded,
    rejected with the reason of a failed write otherwise. *)
Definition generate (program : Program) (apis : list ApiInstance) : M unit :=
  apiDocs ← call (buildDocs program apis) ;
  request (EnsureDirSync docsDir) (ensureDirSync env docsDir) ;;
  issueWrites (docWrites apiDocs) ;;
  call (match awaitWrites env (docWrites apiDocs) with
        | Some e => inl e
        | None => inr tt
        end) ;;
  request (WriteFileSync mkdocsYaml (manifest apiDocs) "utf8")
          (writeFileSync env mkdocsYaml (manifest apiDocs) "utf8").

(** Lines 44-107. *)
Definition main (fuel : nat) : M unit :=
  found ← discover fuel ;
  generate (fst found) (snd found).

(** Lines 109-112: the process. A rejected [main] is reported and the
    process exits with status 1; otherwise Node ends the process with
    status 0 once [main] has resolved. *)
Definition report (error : JsError) : Logged :=
  if String.eqb (stack error) "" then LogError error
  else LogText (stack error).

Record ProcessResult : Type := mkProcessResult {
  events : list Event;
  exitStatus : Z
}.

Definition run (fuel : nat) : option ProcessResult :=
  match main fuel [] with
  | (tr, Returned _) => Some (mkProcessResult tr 0)
  | (tr, Thrown error) =>
      Some (mkProcessResult (tr ++ [ConsoleError (report error); Exit 1]) 1)
  | (_, Diverged) => None
  end.

End Main.

(** ** Vocabulary of the statements *)

(** [loads path result]: the call [loadOptions(path)] returns [result]. *)
Definition loads (env : Env) (path : string) (result : option Options) : Prop :=
  exists fuel, loadOptions env fuel path = Returned result.

(** The [extends] chain that starts at [path] has [n] links and every
    file on it loads. *)
Inductive ChainEnds (env : Env) : string -> nat -> Prop :=
  | chain_root path config :
      require_ env path = inr config ->
      declaredParent config = None ->
      ChainEnds env path 0
  | chain_link path config parent n :
      require_ env path = inr config ->
      declaredParent config = Some parent ->
      ChainEnds env (parentPath path parent) n ->
      ChainEnds env path (S n).

(** [NeverEnds paths]: every path of the set loads and declares a parent
    whose path is again in the set (a cycle, for instance). *)
Definition NeverEnds (env : Env) (paths : string -> Prop) : Prop :=
  forall path, paths path ->
    exists config parent,
      require_ env path = inr config /\
      declaredParent config = Some parent /\
      paths (parentPath path parent).

(** The requests to the file system among the events. *)
Definition isFsRequest (ev : Event) : bool :=
  match ev with
  | EnsureDirSync _ | WriteFile _ _ | WriteFileSync _ _ _ => true
  | _ => false
  end.

(** The error [main] raises when [toDoc] fails on [api] with [cause]. *)
Definition docGenerationError (env : Env) (api : ApiInstance) (cause : JsError) : JsError :=
  newError env "Error"
    ("Doc generation failed for API in " +:+ fileName (source api)
       +:+ ", " +:+ stack cause).

(** The events of the report at the end of a failed run. *)
Definition isReport (ev : Event) : bool :=
  match ev with
  | ConsoleError _ | Exit _ => true
  | _ => false
  end.

(** A plain file or directory name: no separator, and not one of the
    segments [normalize] treats specially. *)
Definition plainSegment (s : string) : Prop :=
  Str.has_slash s = false /\ s <> "" /\ s <> "." /\ s <> "..".

(** A path that is, or ends in, the plain segment [t]. *)
Inductive EndsIn (t : string) : string -> Prop :=
  | ends_alone : EndsIn t t
  | ends_below dir : EndsIn t (dir +:+ "/" +:+ t).

(** The asynchronous [writeFile] requests of a trace, in order. *)
Definition writeFileRequests (tr : list Event) : list (string * string) :=
  flat_map (fun ev => match ev with
                      | WriteFile path data => [(path, data)]
                      | _ => []
                      end) tr.

(** The [writeFileSync] requests of a trace, in order. *)
Definition writeFileSyncRequests (tr : list Event)
    : list (string * string * string) :=
  flat_map (fun ev => match ev with
                      | WriteFileSync path data encoding => [(path, data, encoding)]
                      | _ => []
                      end) tr.


(** ** A sample environment

    A repository whose root configuration extends a base configuration,
    and two discovered API references. *)
Module Sample.

Definition baseOptions : Options :=
  <["target" := VStr "es2019"]>
    (<["removeComments" := VBool true]>
       (<["moduleResolution" := VStr "node"]> ∅)).

Definition rootOptions : Options :=
  <["target" := VStr "esnext"]> (<["noEmit" := VBool false]> ∅).

Definition modules (path : string) : JsError + Config :=
  if String.eqb path "../../../tsconfig.json" then
    inr (mkConfig (Some "./tsconfig.base.json") (Some rootOptions))
  else if String.eqb path "../../../tsconfig.base.json" then
    inr (mkConfig None (Some baseOptions))
  else if String.eqb path "loop.json" then
    inr (mkConfig (Some "loop.json") None)
  else inl (mkJsError ("Cannot find module '" +:+ path +:+ "'")
                      ("Error: Cannot find module '" +:+ path +:+ "'")).

Definition storageApi : ApiInstance :=
  mkApiInstance (mkSourceFile "/repo/packages/core-api/src/storage.ts")
                "b.ref|storageApiRef|Stores things.".
Definition alertApi : ApiInstance :=
  mkApiInstance (mkSourceFile "/repo/packages/core-api/src/alert.ts")
                "a.ref|alertApiRef|Shows alerts.".
Definition brokenApi : ApiInstance :=
  mkApiInstance (mkSourceFile "/repo/packages/core-api/src/broken.ts") "".

Definition storageDoc : ApiDoc := mkApiDoc "b.ref" "storageApiRef" "Stores things.".
Definition alertDoc : ApiDoc := mkApiDoc "a.ref" "alertApiRef" "Shows alerts.".

Definition generator (api : ApiInstance) : JsError + ApiDoc :=
  if String.eqb (detail api) (detail storageApi) then inr storageDoc
  else if String.eqb (detail api) (detail alertApi) then inr alertDoc
  else inl (mkJsError "unsupported type" "Error: unsupported type").

Definition envWith (config : string -> JsError + Config)
    (apis : list ApiInstance) : Env :=
  {| dirname__ := "/repo/packages/docgen/src";
     cwd := "/repo";
     require_ := config;
     frames := "";
     getExportedType := fun _ _ factoryName => inr factoryName;
     findExportedInstances := fun _ _ _ => inr apis;
     toDoc := fun _ _ _ => generator;
     print := fun doc => "# " +:+ name doc;
     ensureDirSync := fun _ => None;
     awaitWrites := fun _ => None;
     writeFileSync := fun _ _ _ => None |}.

Definition env : Env := envWith modules [storageApi; alertApi].
Definition envBroken : Env := envWith modules [storageApi; brokenApi; alertApi].

(** What [loadOptions] returns for the root configuration, the program
    created from it, and the events of discovery. *)
Definition loadedOptions : Options :=
  spread2 (Some baseOptions) (Some rootOptions).
Definition program : Program :=
  mkProgram [entrypoint env] (adjustOptions loadedOptions).
Definition discovered : list Event :=
  [Chdir (rootDir env);
   CreateProgram [entrypoint env] (adjustOptions loadedOptions)].
Definition brokenCause : JsError :=
  mkJsError "unsupported type" "Error: unsupported type".

End Sample.

(** ** Vocabulary of the further statements *)

(** The configurations on the [extends] chain that starts at [path], the
    file itself first, every file of the chain loading. *)
Inductive Chain (env : Env) : string -> list Config -> Prop :=
  | chain_last path config :
      require_ env path = inr config ->
      declaredParent config = None ->
      Chain env path [config]
  | chain_next path config parent rest :
      require_ env path = inr config ->
      declaredParent config = Some parent ->
      Chain env (parentPath path parent) rest ->
      Chain env path (config :: rest).

(** The [extends] chain that starts at [path] reaches a file that
    [require] fails on with [e], the files before it loading. *)
Inductive ChainBreaks (env : Env) : string -> JsError -> Prop :=
  | breaks_here path e :
      require_ env path = inl e ->
      ChainBreaks env path e
  | breaks_above path config parent e :
      require_ env path = inr config ->
      declaredParent config = Some parent ->
      ChainBreaks env (parentPath path parent) e ->
      ChainBreaks env path e.

(** The value of [key] in the first configuration of the list whose
    [compilerOptions] has the key. *)
Fixpoint nearest (key : string) (configs : list Config) : option JsValue :=
  match configs with
  | [] => None
  | config :: rest =>
      match spread (compilerOptions config) !! key with
      | Some value => Some value
      | None => nearest key rest
      end
  end.

(** The keys assigned or deleted between [loadOptions] and
    [ts.createProgram]. *)
Definition adjustedKey (key : string) : Prop :=
  key = "removeComments" \/ key = "noEmit" \/ key = "moduleResolution".


(** ** Further sample environments *)
Module Scenario.

Definition failure (what : string) : JsError :=
  mkJsError what ("Error: " +:+ what).

(** The sample repository with a file system that may refuse the docs
    directory or reject a markdown write. *)
Definition envFs (apis : list ApiInstance) (dirFails writesFail : bool) : Env :=
  {| dirname__ := "/repo/packages/docgen/src";
     cwd := "/repo";
     require_ := Sample.modules;
     frames := "";
     getExportedType := fun _ _ factoryName => inr factoryName;
     findExportedInstances := fun _ _ _ => inr apis;
     toDoc := fun _ _ _ => Sample.generator;
     print := fun doc => "# " +:+ name doc;
     ensureDirSync := fun _ => if dirFails then Some (failure "EACCES") else None;
     awaitWrites := fun _ => if writesFail then Some (failure "ENOSPC") else None;
     writeFileSync := fun _ _ _ => None |}.

(** A root configuration whose parent cannot be found. *)
Definition modulesMissingParent (path : string) : JsError + Config :=
  if String.eqb path "../../../tsconfig.json" then
    inr (mkConfig (Some "./missing.json") (Some Sample.rootOptions))
  else inl (failure "Cannot find module").

(** A root configuration with neither [extends] nor [compilerOptions]. *)
Definition modulesBare (path : string) : JsError + Config :=
  if String.eqb path "../../../tsconfig.json" then inr (mkConfig None None)
  else inl (failure "Cannot find module").

Definition envMissingParent : Env :=
  Sample.envWith modulesMissingParent [Sample.storageApi].
Definition envBare : Env := Sample.envWith modulesBare [Sample.storageApi].
Definition envEmpty : Env := Sample.envWith Sample.modules [].

(** The sample repository started from another working directory. *)
Definition envElsewhere : Env :=
  {| dirname__ := "/repo/packages/docgen/src";
     cwd := "/tmp/elsewhere";
     require_ := Sample.modules;
     frames := "";
     getExportedType := fun _ _ factoryName => inr factoryName;
     findExportedInstances := fun _ _ _ => inr [Sample.storageApi];
     toDoc := fun _ _ _ => Sample.generator;
     print := fun doc => "# " +:+ name doc;
     ensureDirSync := fun _ => None;
     awaitWrites := fun _ => None;
     writeFileSync := fun _ _ _ => None |}.

End Scenario.

(** * Properties of [loadOptions] *)

Section LoadOptions.
Variable env : Env.

Lemma loadOptions_step fuel path :
  loadOptions env (S fuel) path =
    match require_ env path with
    | inl e => Thrown e
    | inr config =>
        match declaredParent config with
        | None => Returned (compilerOptions config)
        | Some parent =>
            match loadOptions env fuel (parentPath path parent) with
            | Returned parentOptions =>
                Returned (Some (spread2 parentOptions (compilerOptions config)))
            | Thrown e => Thrown e
            | Diverged => Diverged
            end
        end
    end.
Proof. reflexivity. Qed.

(** More fuel does not change an answer. *)
Lemma loadOptions_fuel_mono fuel : forall path fuel',
  fuel <= fuel' ->
  loadOptions env fuel path <> Diverged ->
  loadOptions env fuel' path = loadOptions env fuel path.
Proof.
  induction fuel as [|fuel IH]; intros path fuel' Hle Hfin.
  - exfalso. now apply Hfin.
  - destruct fuel' as [|fuel']; [lia|].
    rewrite !loadOptions_step in *.
    destruct (require_ env path) as [e|config]; [reflexivity|].
    destruct (declaredParent config) as [parent|]; [|reflexivity].
    rewrite (IH (parentPath path parent) fuel'); [reflexivity|lia|].
    intros Hdiv. rewrite Hdiv in Hfin. now apply Hfin.
Qed.

Lemma loads_deterministic path r1 r2 :
  loads env path r1 -> loads env path r2 -> r1 = r2.
Proof.
  intros [f1 H1] [f2 H2].
  destruct (Nat.le_ge_cases f1 f2) as [Hle|Hle].
  - rewrite (loadOptions_fuel_mono f1 path f2 Hle) in H2; congruence.
  - rewrite (loadOptions_fuel_mono f2 path f1 Hle) in H1; congruence.
Qed.

Lemma spread2_lookup parent child key :
  spread2 parent child !! key =
    match spread child !! key with
    | Some v => Some v
    | None => spread parent !! key
    end.
Proof.
  unfold spread2. rewrite lookup_union.
  destruct (spread child !! key) as [v|] eqn:Hc.
  - now destruct (spread parent !! key).
  - now destruct (spread parent !! key).
Qed.

Lemma chain_returns path n :
  ChainEnds env path n ->
  exists result, forall fuel, n < fuel ->
    loadOptions env fuel path = Returned result.
Proof.
  induction 1 as [path config Hreq Hpar | path config parent n Hreq Hpar _ IH].
  - exists (compilerOptions config). intros [|fuel] Hlt; [lia|].
    now rewrite loadOptions_step, Hreq, Hpar.
  - destruct IH as [parentOptions IH].
    exists (Some (spread2 parentOptions (compilerOptions config))).
    intros [|fuel] Hlt; [lia|].
    rewrite loadOptions_step, Hreq, Hpar, IH; [reflexivity|lia].
Qed.

Lemma never_ends_diverges paths :
  NeverEnds env paths ->
  forall fuel path, paths path -> loadOptions env fuel path = Diverged.
Proof.
  intros Hclosed. induction fuel as [|fuel IH]; intros path Hin.
  - reflexivity.
  - destruct (Hclosed path Hin) as (config & parent & Hreq & Hpar & Hnext).
    now rewrite loadOptions_step, Hreq, Hpar, (IH _ Hnext).
Qed.

End LoadOptions.

(** C5. [loadOptions] on a configuration without a declared parent returns
    the configuration's own [compilerOptions] unchanged; on a configuration
    with a declared parent it returns the merge of the already merged
    options of the parent with the file's [compilerOptions]: a key of the
    child has the child's value, whatever the parent says, and a key only
    the parent has keeps the parent's value. *)
Theorem loadOptions_merges_parent (env : Env) (path : string) (config : Config)
    (Hload : require_ env path = inr config) :
  match declaredParent config with
  | None => loads env path (compilerOptions config)
  | Some parent =>
      forall parentOptions,
        loads env (parentPath path parent) parentOptions ->
        exists merged,
          loads env path (Some merged) /\
          (forall key value,
             spread (compilerOptions config) !! key = Some value ->
             merged !! key = Some value) /\
          (forall key,
             spread (compilerOptions config) !! key = None ->
             merged !! key = spread parentOptions !! key)
  end.
Proof.
  destruct (declaredParent config) as [parent|] eqn:Hpar.
  - intros parentOptions [fuel Hfuel].
    exists (spread2 parentOptions (compilerOptions config)). split; [|split].
    + exists (S fuel). now rewrite loadOptions_step, Hload, Hpar, Hfuel.
    + intros key value Hkey. now rewrite spread2_lookup, Hkey.
    + intros key Hkey. now rewrite spread2_lookup, Hkey.
  - exists 1. now rewrite loadOptions_step, Hload, Hpar.
Qed.

(** * Properties of [main] *)

(** ** [apis.map] with a callback that may throw *)

Section MapThrowing.
Context {A B : Type} (f : A -> JsError + B).

Lemma mapThrowing_first_failure before x after e :
  Forall (fun a => exists b, f a = inr b) before ->
  f x = inl e ->
  mapThrowing f (before ++ x :: after) = inl e.
Proof.
  induction 1 as [|a before [b Hb] _ IH]; intros Hx; simpl.
  - now rewrite Hx.
  - now rewrite Hb, IH.
Qed.

(** A list with a failing element splits at its first failing element. *)
Lemma first_failure_split xs x e :
  In x xs -> f x = inl e ->
  exists before y after e',
    xs = before ++ y :: after /\
    Forall (fun a => exists b, f a = inr b) before /\
    f y = inl e'.
Proof.
  induction xs as [|a xs IH]; intros Hin Hx; [destruct Hin|].
  destruct (f a) as [ea|b] eqn:Ha.
  - exists [], a, xs, ea. repeat split; [constructor|assumption].
  - destruct Hin as [->|Hin]; [congruence|].
    destruct (IH Hin Hx) as (before & y & after & e' & -> & Hall & Hy).
    exists (a :: before), y, after, e'. repeat split; [|assumption].
    constructor; [now exists b|assumption].
Qed.

Lemma mapThrowing_returns xs ys :
  mapThrowing f xs = inr ys <-> Forall2 (fun x y => f x = inr y) xs ys.
Proof.
  revert ys. induction xs as [|x xs IH]; intros ys; simpl.
  - split; [intros [= <-]; constructor|inversion 1; reflexivity].
  - destruct (f x) as [e|y] eqn:Hx.
    + split; [discriminate|]. inversion 1; congruence.
    + destruct (mapThrowing f xs) as [e|ys'] eqn:Hxs.
      * split; [discriminate|]. inversion 1 as [|? y' ? ys'' Hy Hrest]; subst.
        apply IH in Hrest. discriminate.
      * split.
        -- intros [= <-]. constructor; [assumption|now apply IH].
        -- inversion 1 as [|? y' ? ys'' Hy Hrest]; subst.
           apply IH in Hrest. congruence.
Qed.

End MapThrowing.

(** ** The stages of [main], case by case *)

Section Stages.
Variable env : Env.

Lemma discover_cases fuel tr :
  discover env fuel tr =
    let tr1 := tr ++ [Chdir (rootDir env)] in
    match loadOptions env fuel (tsconfig) with
    | Diverged => (tr1, Diverged)
    | Thrown e => (tr1, Thrown e)
    | Returned None =>
        (tr1, Thrown (newError env "TypeError"
                        "Cannot convert undefined or null to object"))
    | Returned (Some loaded) =>
        let options := adjustOptions loaded in
        let program := mkProgram [entrypoint env] options in
        let tr2 := tr1 ++ [CreateProgram [entrypoint env] options] in
        match getExportedType env program (entrypoint env) "createApiRef" with
        | inl e => (tr2, Thrown e)
        | inr factory =>
            match findExportedInstances env program factory [srcDir env] with
            | inl e => (tr2, Thrown e)
            | inr apis => (tr2, Returned (program, apis))
            end
        end
    end.
Proof.
  unfold discover, mbind, M_bind, bind, emit, liftOutcome, call, throw, ret.
  destruct (loadOptions env fuel tsconfig) as [[loaded|]|e|]; try reflexivity.
  cbn zeta.
  destruct (getExportedType env _ (entrypoint env) "createApiRef")
    as [e|factory]; [reflexivity|].
  destruct (findExportedInstances env _ factory [srcDir env]); reflexivity.
Qed.

Lemma generate_cases program apis tr :
  generate env program apis tr =
    match buildDocs env program apis with
    | inl e => (tr, Thrown e)
    | inr apiDocs =>
        let tr1 := tr ++ [EnsureDirSync (docsDir env)] in
        match ensureDirSync env (docsDir env) with
        | Some e => (tr1, Thrown e)
        | None =>
            let tr2 := tr1 ++ writeEvents (docWrites env apiDocs) in
            match awaitWrites env (docWrites env apiDocs) with
            | Some e => (tr2, Thrown e)
            | None =>
                let tr3 :=
                  tr2 ++ [WriteFileSync (mkdocsYaml env)
                            (manifest apiDocs) "utf8"] in
                match writeFileSync env (mkdocsYaml env)
                        (manifest apiDocs) "utf8" with
                | Some e => (tr3, Thrown e)
                | None => (tr3, Returned tt)
                end
            end
        end
    end.
Proof.
  unfold generate, mbind, M_bind, bind, request, issueWrites, call, throw, ret.
  destruct (buildDocs env program apis) as [e|apiDocs]; [reflexivity|].
  destruct (ensureDirSync env (docsDir env)); [reflexivity|].
  fold (writeEvents (docWrites env apiDocs)).
  destruct (awaitWrites env (docWrites env apiDocs)); [reflexivity|].
  destruct (writeFileSync env (mkdocsYaml env) (manifest apiDocs) "utf8");
    reflexivity.
Qed.

Lemma main_cases fuel tr :
  main env fuel tr =
    match discover env fuel tr with
    | (tr', Returned found) => generate env (fst found) (snd found) tr'
    | (tr', Thrown e) => (tr', Thrown e)
    | (tr', Diverged) => (tr', Diverged)
    end.
Proof. reflexivity. Qed.

(** Once [loadOptions] has answered, more fuel changes nothing. *)
Lemma main_fuel_mono fuel fuel' tr :
  fuel <= fuel' ->
  loadOptions env fuel tsconfig <> Diverged ->
  main env fuel' tr = main env fuel tr.
Proof.
  intros Hle Hfin. rewrite !main_cases, !discover_cases.
  now rewrite (loadOptions_fuel_mono env fuel tsconfig fuel' Hle Hfin).
Qed.

Lemma run_fuel_mono fuel fuel' result :
  fuel <= fuel' ->
  run env fuel = Some result ->
  run env fuel' = Some result.
Proof.
  intros Hle Hrun. unfold run.
  rewrite (main_fuel_mono fuel fuel' [] Hle); [exact Hrun|].
  intros Hdiv. unfold run in Hrun.
  rewrite main_cases, discover_cases, Hdiv in Hrun. discriminate.
Qed.

(** Discovery issues no request to the file system. *)
Lemma discover_no_fs_request fuel tr outcome :
  discover env fuel [] = (tr, outcome) ->
  Forall (fun ev => isFsRequest ev = false) tr.
Proof.
  rewrite discover_cases. cbn zeta.
  destruct (loadOptions env fuel tsconfig) as [[loaded|]|e|].
  2-4: intros [= <- _]; repeat constructor.
  destruct (getExportedType env _ (entrypoint env) "createApiRef")
    as [e|factory]; [intros [= <- _]; repeat constructor|].
  destruct (findExportedInstances env _ factory [srcDir env]);
    intros [= <- _]; repeat constructor.
Qed.

(** The program found by discovery was created with the adjusted
    options, and the trace of discovery says so. *)
Lemma discover_returned fuel tr program apis :
  discover env fuel [] = (tr, Returned (program, apis)) ->
  exists loaded,
    loadOptions env fuel tsconfig = Returned (Some loaded) /\
    program = mkProgram [entrypoint env] (adjustOptions loaded) /\
    tr = [Chdir (rootDir env);
          CreateProgram [entrypoint env] (adjustOptions loaded)].
Proof.
  rewrite discover_cases. cbn zeta.
  destruct (loadOptions env fuel tsconfig) as [[loaded|]|e|]; try discriminate.
  destruct (getExportedType env _ (entrypoint env) "createApiRef")
    as [e|factory]; [discriminate|].
  destruct (findExportedInstances env _ factory [srcDir env]); [discriminate|].
  intros [= <- <- <-]. now exists loaded.
Qed.

(** Generation only adds requests to the file system to the trace. *)
Lemma generate_trace program apis tr tr' outcome :
  generate env program apis tr = (tr', outcome) ->
  exists requests,
    tr' = tr ++ requests /\
    Forall (fun ev => isFsRequest ev = true) requests.
Proof.
  rewrite generate_cases. cbn zeta.
  assert (Hw : forall ws,
    Forall (fun ev => isFsRequest ev = true) (writeEvents ws)).
  { intros ws. unfold writeEvents. apply List.Forall_forall.
    intros ev Hev. apply in_map_iff in Hev as (w & <- & _). reflexivity. }
  destruct (buildDocs env program apis) as [e|apiDocs].
  { intros [= <- _]. exists []. now rewrite app_nil_r. }
  destruct (ensureDirSync env (docsDir env)).
  { intros [= <- _]. exists [EnsureDirSync (docsDir env)].
    split; [reflexivity|repeat constructor]. }
  destruct (awaitWrites env (docWrites env apiDocs)).
  { intros [= <- _].
    exists (EnsureDirSync (docsDir env) :: writeEvents (docWrites env apiDocs)).
    split; [now rewrite <- app_assoc|]. constructor; [reflexivity|apply Hw]. }
  assert (Hall : Forall (fun ev => isFsRequest ev = true)
            (EnsureDirSync (docsDir env) :: writeEvents (docWrites env apiDocs)
               ++ [WriteFileSync (mkdocsYaml env) (manifest apiDocs) "utf8"])).
  { constructor; [reflexivity|]. apply Forall_app; split; [apply Hw|].
    repeat constructor. }
  destruct (writeFileSync env (mkdocsYaml env) (manifest apiDocs) "utf8");
    intros [= <- _]; eexists; (split; [|exact Hall]);
    now rewrite <- !app_assoc.
Qed.

Lemma discover_createProgram fuel tr outcome files options :
  discover env fuel [] = (tr, outcome) ->
  In (CreateProgram files options) tr ->
  exists loaded,
    loadOptions env fuel tsconfig = Returned (Some loaded) /\
    options = adjustOptions loaded.
Proof.
  rewrite discover_cases. cbn zeta.
  destruct (loadOptions env fuel tsconfig) as [[loaded|]|e'|].
  2-4: intros [= <- _] Hin; simpl in Hin; destruct Hin as [Hin|[]];
       discriminate.
  intros Hdisc Hin. exists loaded. split; [reflexivity|].
  assert (Htr : tr = [Chdir (rootDir env);
                      CreateProgram [entrypoint env] (adjustOptions loaded)]).
  { destruct (getExportedType env _ (entrypoint env) "createApiRef")
      as [e1|factory];
      [|destruct (findExportedInstances env _ factory [srcDir env])];
      now injection Hdisc as <- _. }
  subst tr. simpl in Hin. destruct Hin as [Hin|[Hin|[]]]; [discriminate|].
  now injection Hin as _ <-.
Qed.

(** Every program creation of a run carries the adjusted result of
    [loadOptions]. *)
Lemma createProgram_event fuel tr outcome files options :
  main env fuel [] = (tr, outcome) ->
  In (CreateProgram files options) tr ->
  exists loaded,
    loadOptions env fuel tsconfig = Returned (Some loaded) /\
    options = adjustOptions loaded.
Proof.
  rewrite main_cases.
  destruct (discover env fuel []) as [tr0 [[program apis]|e|]] eqn:Hdisc.
  - cbn [fst snd]. intros Hgen Hin.
    apply generate_trace in Hgen as (requests & -> & Hall).
    apply in_app_or in Hin as [Hin|Hin].
    + now apply (discover_createProgram _ _ _ files options Hdisc).
    + rewrite List.Forall_forall in Hall. apply Hall in Hin. discriminate.
  - intros [= <- _]. now apply (discover_createProgram _ _ _ files options Hdisc).
  - intros [= <- _]. now apply (discover_createProgram _ _ _ files options Hdisc).
Qed.

End Stages.

(** ** Building the documents *)

Section Building.
Variable env : Env.

Lemma buildDoc_returns program api doc :
  buildDoc env program api = inr doc <->
  toDoc env program (rootDir env) (srcDir env) api = inr doc.
Proof.
  unfold buildDoc.
  destruct (toDoc env program (rootDir env) (srcDir env) api);
    split; congruence.
Qed.

Lemma buildDoc_fails program api cause :
  toDoc env program (rootDir env) (srcDir env) api = inl cause ->
  buildDoc env program api = inl (docGenerationError env api cause).
Proof. unfold buildDoc. now intros ->. Qed.

Lemma buildDocs_first_failure program before api after cause :
  Forall (fun a => exists doc,
            toDoc env program (rootDir env) (srcDir env) a = inr doc) before ->
  toDoc env program (rootDir env) (srcDir env) api = inl cause ->
  buildDocs env program (before ++ api :: after) =
    inl (docGenerationError env api cause).
Proof.
  intros Hbefore Hfail. unfold buildDocs.
  rewrite (mapThrowing_first_failure _ before api after
             (docGenerationError env api cause)); [reflexivity| |].
  - eapply List.Forall_impl; [|exact Hbefore].
    intros a [doc Hdoc]. exists doc. now apply buildDoc_returns.
  - now apply buildDoc_fails.
Qed.

Lemma buildDocs_some_failure program apis api cause :
  In api apis ->
  toDoc env program (rootDir env) (srcDir env) api = inl cause ->
  exists first cause',
    In first apis /\
    toDoc env program (rootDir env) (srcDir env) first = inl cause' /\
    buildDocs env program apis = inl (docGenerationError env first cause').
Proof.
  intros Hin Hfail.
  destruct (first_failure_split
              (toDoc env program (rootDir env) (srcDir env)) apis api cause
              Hin Hfail)
    as (before & first & after & cause' & -> & Hbefore & Hfirst).
  exists first, cause'. split; [|split; [assumption|]].
  - apply in_or_app. right. now left.
  - now apply buildDocs_first_failure.
Qed.

Lemma buildDocs_returns program apis docs :
  buildDocs env program apis = inr docs <->
  exists built,
    Forall2 (fun api doc =>
               toDoc env program (rootDir env) (srcDir env) api = inr doc)
            apis built /\
    docs = Ordering.arraySort (Ordering.sortSelector id) built.
Proof.
  unfold buildDocs.
  destruct (mapThrowing (buildDoc env program) apis) as [e|built] eqn:Hmap.
  - split; [discriminate|]. intros (built & Hall & _).
    assert (Hb : mapThrowing (buildDoc env program) apis = inr built).
    { apply mapThrowing_returns. eapply Forall2_impl; [exact Hall|].
      intros api doc Hdoc. now apply buildDoc_returns. }
    congruence.
  - apply mapThrowing_returns in Hmap. split.
    + intros [= <-]. exists built. split; [|reflexivity].
      eapply Forall2_impl; [exact Hmap|].
      intros api doc Hdoc. now apply buildDoc_returns.
    + intros (built' & Hall & ->).
      assert (Hb : mapThrowing (buildDoc env program) apis = inr built').
      { apply mapThrowing_returns. eapply Forall2_impl; [exact Hall|].
        intros api doc Hdoc. now apply buildDoc_returns. }
      apply mapThrowing_returns in Hb.
      assert (built = built'); [|now subst].
      clear -Hmap Hb. revert built' Hb.
      induction Hmap; intros built' Hb; inversion Hb; subst; [reflexivity|].
      f_equal; [congruence|auto].
Qed.

(** A request to the file system is only issued once the whole document
    set is built and sorted. *)
Lemma fs_request_after_build fuel tr outcome ev :
  main env fuel [] = (tr, outcome) ->
  In ev tr -> isFsRequest ev = true ->
  exists tr0 program apis docs,
    discover env fuel [] = (tr0, Returned (program, apis)) /\
    buildDocs env program apis = inr docs.
Proof.
  rewrite main_cases.
  destruct (discover env fuel []) as [tr0 [[program apis]|e|]] eqn:Hdisc.
  - cbn [fst snd]. intros Hgen Hin Hfs.
    destruct (buildDocs env program apis) as [e|docs] eqn:Hbuild.
    + rewrite generate_cases, Hbuild in Hgen. injection Hgen as <- _.
      apply discover_no_fs_request in Hdisc.
      rewrite List.Forall_forall in Hdisc. apply Hdisc in Hin. congruence.
    + now exists tr0, program, apis, docs.
  - intros [= <- _] Hin Hfs. apply discover_no_fs_request in Hdisc.
    rewrite List.Forall_forall in Hdisc. apply Hdisc in Hin. congruence.
  - intros [= <- _] Hin Hfs. apply discover_no_fs_request in Hdisc.
    rewrite List.Forall_forall in Hdisc. apply Hdisc in Hin. congruence.
Qed.

Lemma main_build_failure fuel tr0 program apis error :
  discover env fuel [] = (tr0, Returned (program, apis)) ->
  buildDocs env program apis = inl error ->
  main env fuel [] = (tr0, Thrown error).
Proof.
  intros Hdisc Hbuild. rewrite main_cases, Hdisc. cbn [fst snd].
  now rewrite generate_cases, Hbuild.
Qed.

Lemma run_thrown fuel tr error :
  main env fuel [] = (tr, Thrown error) ->
  run env fuel =
    Some (mkProcessResult (tr ++ [ConsoleError (report error); Exit 1]) 1).
Proof. unfold run. now intros ->. Qed.

End Building.

(** C1. When [toDoc] throws for some discovered call, the run ends with an
    error and its whole trace holds no request to the file system: no
    markdown file, no manifest (and no directory) is written. *)
Theorem no_artifact_when_toDoc_fails (env : Env) (fuel : nat)
    (tr0 : list Event) (program : Program) (apis : list ApiInstance)
    (api : ApiInstance) (cause : JsError)
    (Hdisc : discover env fuel [] = (tr0, Returned (program, apis)))
    (Hin : In api apis)
    (Hfail : toDoc env program (rootDir env) (srcDir env) api = inl cause) :
  exists error result,
    main env fuel [] = (tr0, Thrown error) /\
    run env fuel = Some result /\
    exitStatus result = 1%Z /\
    Forall (fun ev => isFsRequest ev = false) (events result).
Proof.
  destruct (buildDocs_some_failure env program apis api cause Hin Hfail)
    as (first & cause' & _ & _ & Hbuild).
  pose proof (main_build_failure env fuel tr0 program apis _ Hdisc Hbuild) as Hmain.
  eexists _, _. split; [exact Hmain|].
  split; [exact (run_thrown env fuel tr0 _ Hmain)|].
  split; [reflexivity|]. cbn [events].
  apply Forall_app; split; [|repeat constructor].
  now apply (discover_no_fs_request env fuel tr0 _ Hdisc).
Qed.

(** C4. When [toDoc] throws on a discovered call (the calls before it
    having been built), [main] stops there with an [Error] whose message
    names the source file of that call and carries the stack of the cause;
    no document list comes out of the build, nothing is asked of the file
    system, and the calls after it play no part. *)
Theorem toDoc_failure_aborts_run (env : Env) (fuel : nat)
    (tr0 : list Event) (program : Program)
    (before after : list ApiInstance) (api : ApiInstance) (cause : JsError)
    (Hdisc : discover env fuel [] =
               (tr0, Returned (program, before ++ api :: after)))
    (Hbefore : Forall (fun a => exists doc,
                 toDoc env program (rootDir env) (srcDir env) a = inr doc) before)
    (Hfail : toDoc env program (rootDir env) (srcDir env) api = inl cause) :
  let error := docGenerationError env api cause in
  message error =
    "Doc generation failed for API in " +:+ fileName (source api)
      +:+ ", " +:+ stack cause /\
  buildDocs env program (before ++ api :: after) = inl error /\
  main env fuel [] = (tr0, Thrown error) /\
  Forall (fun ev => isFsRequest ev = false) tr0 /\
  run env fuel =
    Some (mkProcessResult
            (tr0 ++ [ConsoleError (LogText (stack error)); Exit 1]) 1).
Proof.
  intros error.
  pose proof (buildDocs_first_failure env program before api after cause
                Hbefore Hfail) as Hbuild.
  pose proof (main_build_failure env fuel tr0 program _ _ Hdisc Hbuild) as Hmain.
  split; [reflexivity|]. split; [exact Hbuild|]. split; [exact Hmain|].
  split; [now apply (discover_no_fs_request env fuel tr0 _ Hdisc)|].
  now rewrite (run_thrown env fuel tr0 _ Hmain).
Qed.

(** ** The options given to program creation *)

Lemma adjustOptions_removeComments (options : Options) :
  adjustOptions options !! "removeComments" = Some (VBool false).
Proof.
  unfold adjustOptions.
  rewrite lookup_insert_ne by discriminate. apply lookup_insert_eq.
Qed.

Lemma adjustOptions_noEmit (options : Options) :
  adjustOptions options !! "noEmit" = Some (VBool true).
Proof. unfold adjustOptions. apply lookup_insert_eq. Qed.

Lemma adjustOptions_moduleResolution (options : Options) :
  adjustOptions options !! "moduleResolution" = None.
Proof.
  unfold adjustOptions.
  rewrite !lookup_insert_ne by discriminate. apply lookup_delete_eq.
Qed.

Lemma adjustOptions_other (options : Options) (key : string) :
  key <> "removeComments" -> key <> "noEmit" -> key <> "moduleResolution" ->
  adjustOptions options !! key = options !! key.
Proof.
  intros H1 H2 H3. unfold adjustOptions.
  rewrite !lookup_insert_ne by congruence. now apply lookup_delete_ne.
Qed.

Lemma createProgram_reached (env : Env) (fuel : nat) (tr : list Event)
    (outcome : Outcome unit) (loaded : Options) :
  main env fuel [] = (tr, outcome) ->
  loadOptions env fuel tsconfig = Returned (Some loaded) ->
  In (CreateProgram [entrypoint env] (adjustOptions loaded)) tr.
Proof.
  intros Hmain Hload.
  assert (Hdisc : exists o,
    discover env fuel [] =
      ([Chdir (rootDir env);
        CreateProgram [entrypoint env] (adjustOptions loaded)], o)).
  { rewrite discover_cases, Hload. cbn zeta.
    destruct (getExportedType env _ (entrypoint env) "createApiRef")
      as [e|factory]; [now eexists|].
    destruct (findExportedInstances env _ factory [srcDir env]); now eexists. }
  destruct Hdisc as [o Hdisc]. rewrite main_cases, Hdisc in Hmain.
  destruct o as [[program apis]|e|].
  - cbn [fst snd] in Hmain.
    apply generate_trace in Hmain as (requests & -> & _).
    apply in_or_app. left. right. now left.
  - injection Hmain as <- _. right. now left.
  - injection Hmain as <- _. right. now left.
Qed.

(** C6. Whatever the loaded configuration holds, the option set of every
    program creation of a run has [removeComments = false] and
    [noEmit = true]: it is the result of [loadOptions] on which the two
    assignments were made after the merge; and a run whose [loadOptions]
    returns an option set does create the program with it. *)
Theorem createProgram_comment_and_emit_overrides (env : Env) (fuel : nat)
    (tr : list Event) (outcome : Outcome unit)
    (Hrun : main env fuel [] = (tr, outcome)) :
  (forall files options,
     In (CreateProgram files options) tr ->
     options !! "removeComments" = Some (VBool false) /\
     options !! "noEmit" = Some (VBool true) /\
     exists loaded,
       loadOptions env fuel tsconfig = Returned (Some loaded) /\
       options =
         <["noEmit" := VBool true]>
           (<["removeComments" := VBool false]>
              (delete "moduleResolution" loaded))) /\
  (forall loaded,
     loadOptions env fuel tsconfig = Returned (Some loaded) ->
     In (CreateProgram [entrypoint env] (adjustOptions loaded)) tr).
Proof.
  split.
  - intros files options Hin.
    destruct (createProgram_event env fuel tr outcome files options Hrun Hin)
      as (loaded & Hload & ->).
    split; [apply adjustOptions_removeComments|].
    split; [apply adjustOptions_noEmit|].
    now exists loaded.
  - intros loaded Hload. now apply (createProgram_reached env fuel tr outcome).
Qed.

(** C10. The option set of every program creation of a run has no
    [moduleResolution] key, and each key other than [removeComments],
    [noEmit] and [moduleResolution] has there exactly what the result of
    [loadOptions] has (the value, or no value). *)
Theorem createProgram_frame (env : Env) (fuel : nat)
    (tr : list Event) (outcome : Outcome unit)
    (files : list string) (options : Options)
    (Hrun : main env fuel [] = (tr, outcome))
    (Hev : In (CreateProgram files options) tr) :
  exists loaded,
    loadOptions env fuel tsconfig = Returned (Some loaded) /\
    options !! "moduleResolution" = None /\
    (forall key,
       key <> "removeComments" -> key <> "noEmit" ->
       key <> "moduleResolution" ->
       options !! key = loaded !! key).
Proof.
  destruct (createProgram_event env fuel tr outcome files options Hrun Hev)
    as (loaded & Hload & ->).
  exists loaded. split; [assumption|].
  split; [apply adjustOptions_moduleResolution|].
  intros key H1 H2 H3. now apply adjustOptions_other.
Qed.

(** ** The process *)

Lemma main_no_report (env : Env) (fuel : nat) (tr : list Event)
    (outcome : Outcome unit) :
  main env fuel [] = (tr, outcome) ->
  Forall (fun ev => isReport ev = false) tr.
Proof.
  rewrite main_cases.
  assert (Hd : forall tr0 o, discover env fuel [] = (tr0, o) ->
                 Forall (fun ev => isReport ev = false) tr0).
  { intros tr0 o. rewrite discover_cases. cbn zeta.
    destruct (loadOptions env fuel tsconfig) as [[loaded|]|e|].
    2-4: intros [= <- _]; repeat constructor.
    destruct (getExportedType env _ (entrypoint env) "createApiRef")
      as [e|factory]; [intros [= <- _]; repeat constructor|].
    destruct (findExportedInstances env _ factory [srcDir env]);
      intros [= <- _]; repeat constructor. }
  destruct (discover env fuel []) as [tr0 [[program apis]|e|]] eqn:Hdisc.
  - cbn [fst snd]. intros Hgen.
    apply generate_trace in Hgen as (requests & -> & Hall).
    apply Forall_app; split; [exact (Hd tr0 _ eq_refl)|].
    eapply List.Forall_impl; [|exact Hall]. now intros [].
  - intros [= <- _]. exact (Hd tr0 _ eq_refl).
  - intros [= <- _]. exact (Hd tr0 _ eq_refl).
Qed.

Lemma main_success (env : Env) (fuel : nat) (tr0 : list Event)
    (program : Program) (apis : list ApiInstance) (docs : list ApiDoc) :
  discover env fuel [] = (tr0, Returned (program, apis)) ->
  buildDocs env program apis = inr docs ->
  ensureDirSync env (docsDir env) = None ->
  awaitWrites env (docWrites env docs) = None ->
  writeFileSync env (mkdocsYaml env) (manifest docs) "utf8" = None ->
  main env fuel [] =
    (tr0 ++ [EnsureDirSync (docsDir env)] ++ writeEvents (docWrites env docs)
         ++ [WriteFileSync (mkdocsYaml env) (manifest docs) "utf8"],
     Returned tt).
Proof.
  intros Hdisc Hbuild Hdir Hwrites Hsync.
  rewrite main_cases, Hdisc. cbn [fst snd].
  rewrite generate_cases, Hbuild, Hdir, Hwrites, Hsync. cbn zeta.
  now rewrite <- !app_assoc.
Qed.

(** C8. A failure of discovery (loading the options, creating the
    program's type locator, finding the exported instances) or of building
    a document ends the process with exit status 1 after one
    [console.error] of the error's stack (of the error itself when it has
    no stack); when discovery, building and every file-system request
    succeed, the process ends with exit status 0 and reports nothing. The
    exit status is 0 exactly when [main] resolved. *)
Theorem exit_status_reflects_failure (env : Env) (fuel : nat) :
  (forall tr error,
     discover env fuel [] = (tr, Thrown error) ->
     run env fuel =
       Some (mkProcessResult (tr ++ [ConsoleError (report error); Exit 1]) 1)) /\
  (forall tr program apis error,
     discover env fuel [] = (tr, Returned (program, apis)) ->
     buildDocs env program apis = inl error ->
     run env fuel =
       Some (mkProcessResult (tr ++ [ConsoleError (report error); Exit 1]) 1)) /\
  (forall error,
     report error =
       (if String.eqb (stack error) "" then LogError error
        else LogText (stack error))) /\
  (forall tr program apis docs,
     discover env fuel [] = (tr, Returned (program, apis)) ->
     buildDocs env program apis = inr docs ->
     ensureDirSync env (docsDir env) = None ->
     awaitWrites env (docWrites env docs) = None ->
     writeFileSync env (mkdocsYaml env) (manifest docs) "utf8" = None ->
     exists events,
       run env fuel = Some (mkProcessResult events 0) /\
       Forall (fun ev => isReport ev = false) events) /\
  (forall result,
     run env fuel = Some result ->
     (exitStatus result = 0%Z <-> exists tr, main env fuel [] = (tr, Returned tt)) /\
     (exitStatus result = 1%Z <-> exists tr error, main env fuel [] = (tr, Thrown error))).
Proof.
  split; [|split; [|split; [|split]]].
  - intros tr error Hdisc. apply run_thrown. now rewrite main_cases, Hdisc.
  - intros tr program apis error Hdisc Hbuild. apply run_thrown.
    now apply (main_build_failure env fuel tr program apis).
  - reflexivity.
  - intros tr program apis docs Hdisc Hbuild Hdir Hwrites Hsync.
    pose proof (main_success env fuel tr program apis docs
                  Hdisc Hbuild Hdir Hwrites Hsync) as Hmain.
    eexists. split.
    + unfold run. rewrite Hmain. reflexivity.
    + now apply (main_no_report env fuel _ (Returned tt)).
  - intros result. unfold run.
    destruct (main env fuel []) as [tr [[]|error|]] eqn:Hmain;
      [| |discriminate]; intros [= <-]; cbn [exitStatus].
    + split; split.
      * intros _. now exists tr.
      * reflexivity.
      * discriminate.
      * intros (tr' & error & [=]).
    + split; split.
      * discriminate.
      * intros (tr' & [=]).
      * intros _. now exists tr, error.
      * reflexivity.
Qed.

(** * Properties of the ordering selector *)

Lemma lower_char_idempotent (c : ascii) :
  Ordering.lower_char (Ordering.lower_char c) = Ordering.lower_char c.
Proof. destruct c as [[] [] [] [] [] [] [] []]; reflexivity. Qed.

(** Lower-casing twice is lower-casing once: a text and its lower-case
    form have the same key. *)
Lemma lower_idempotent (s : string) :
  Ordering.lower (Ordering.lower s) = Ordering.lower s.
Proof.
  induction s as [|c s IH]; [reflexivity|].
  simpl. now rewrite lower_char_idempotent, IH.
Qed.

Section OrderingProperties.
Context {T : Type} (fold : string -> string) (projection : T -> string).

Local Abbreviation compare_items := (Ordering.sortSelectorWith fold projection).
Local Abbreviation key := (fun x : T => fold (projection x)).
Local Abbreviation precedes := (Ordering.precedes compare_items).

Lemma selector_sign a b :
  compare_items a b = Ordering.sign (String.compare (key a) (key b)).
Proof. reflexivity. Qed.

Lemma selector_antisym a b : compare_items b a = (- compare_items a b)%Z.
Proof.
  rewrite !selector_sign, (String.compare_antisym (key b) (key a)).
  now destruct (String.compare (key a) (key b)).
Qed.

Lemma compare_same (s : string) : String.compare s s = Eq.
Proof.
  pose proof (String.compare_antisym s s) as H.
  now destruct (String.compare s s).
Qed.

Lemma selector_zero a b : compare_items a b = 0%Z <-> key a = key b.
Proof.
  rewrite selector_sign. split.
  - intros H. apply String.compare_eq_iff.
    now destruct (String.compare (key a) (key b)).
  - intros ->. now rewrite compare_same.
Qed.

Lemma selector_le a b : precedes a b <-> (key a ≤ key b)%string.
Proof.
  unfold precedes. rewrite selector_sign.
  unfold String.le, String.leb.
  destruct (String.compare (key a) (key b)); simpl; split;
    (lia || easy).
Qed.

Lemma selector_total a b : precedes a b \/ precedes b a.
Proof.
  rewrite !selector_le.
  destruct (total (≤)%string (key a) (key b)); auto.
Qed.

Lemma selector_trans a b c : precedes a b -> precedes b c -> precedes a c.
Proof. rewrite !selector_le. apply transitivity. Qed.

Lemma selector_refl a : compare_items a a = 0%Z.
Proof. now apply selector_zero. Qed.

Lemma selector_not_le a b : ~ precedes a b -> precedes b a.
Proof. intros Hn. destruct (selector_total a b); [contradiction|assumption]. Qed.

(** *** Insertion *)

Lemma insertSorted_perm x l :
  Permutation (x :: l) (Ordering.insertSorted compare_items x l).
Proof.
  induction l as [|y l IH]; simpl; [reflexivity|].
  destruct (compare_items x y <=? 0)%Z; [reflexivity|].
  rewrite perm_swap. now constructor.
Qed.

Lemma insertSorted_hdrel a x l :
  precedes a x -> HdRel precedes a l ->
  HdRel precedes a (Ordering.insertSorted compare_items x l).
Proof.
  intros Hax Hal. destruct l as [|y l]; simpl; [now constructor|].
  destruct (compare_items x y <=? 0)%Z; constructor; [assumption|].
  now inversion Hal.
Qed.

Lemma insertSorted_sorted x l :
  Sorted precedes l -> Sorted precedes (Ordering.insertSorted compare_items x l).
Proof.
  induction 1 as [|y l Hl IH Hy]; simpl; [repeat constructor|].
  destruct (compare_items x y <=? 0)%Z eqn:Hxy.
  - apply Z.leb_le in Hxy. repeat constructor; assumption.
  - apply Z.leb_gt in Hxy. constructor; [assumption|].
    apply insertSorted_hdrel; [|assumption].
    apply selector_not_le. unfold precedes. lia.
Qed.

Lemma insertSorted_head x l :
  HdRel precedes x l -> Ordering.insertSorted compare_items x l = x :: l.
Proof.
  destruct 1 as [|y l Hxy]; simpl; [reflexivity|].
  unfold precedes in Hxy. apply Z.leb_le in Hxy. now rewrite Hxy.
Qed.

(** Inserting [x] leaves the items tied with [w] in their order, [x]
    going in front of the items it is tied with. *)
Lemma insertSorted_ties w x l :
  filter (Ordering.tied compare_items w)
         (Ordering.insertSorted compare_items x l) =
  filter (Ordering.tied compare_items w) (x :: l).
Proof.
  induction l as [|y l IH]; simpl; [reflexivity|].
  destruct (compare_items x y <=? 0)%Z eqn:Hxy; [reflexivity|].
  apply Z.leb_gt in Hxy.
  rewrite filter_cons, IH, !(filter_cons _ x), (filter_cons _ y).
  destruct (decide (Ordering.tied compare_items w y)) as [Hwy|Hwy];
    destruct (decide (Ordering.tied compare_items w x)) as [Hwx|Hwx];
    try reflexivity.
  exfalso. apply selector_zero in Hwy, Hwx.
  assert (Hz : compare_items x y = 0%Z) by (apply selector_zero; congruence).
  lia.
Qed.

(** *** The sort *)

Lemma arraySort_cons x l :
  Ordering.arraySort compare_items (x :: l) =
  Ordering.insertSorted compare_items x (Ordering.arraySort compare_items l).
Proof. reflexivity. Qed.

Lemma arraySort_perm l : Permutation l (Ordering.arraySort compare_items l).
Proof.
  induction l as [|x l IH]; [reflexivity|].
  rewrite arraySort_cons, <- insertSorted_perm. now constructor.
Qed.

Lemma arraySort_sorted l : Sorted precedes (Ordering.arraySort compare_items l).
Proof.
  induction l as [|x l IH]; [constructor|].
  rewrite arraySort_cons. now apply insertSorted_sorted.
Qed.

Lemma arraySort_of_sorted l :
  Sorted precedes l -> Ordering.arraySort compare_items l = l.
Proof.
  induction 1 as [|x l Hl IH Hx]; [reflexivity|].
  rewrite arraySort_cons, IH. now apply insertSorted_head.
Qed.

Lemma arraySort_idempotent l :
  Ordering.arraySort compare_items (Ordering.arraySort compare_items l) =
  Ordering.arraySort compare_items l.
Proof. apply arraySort_of_sorted, arraySort_sorted. Qed.

Lemma arraySort_stable w l :
  filter (Ordering.tied compare_items w) (Ordering.arraySort compare_items l) =
  filter (Ordering.tied compare_items w) l.
Proof.
  induction l as [|x l IH]; [reflexivity|].
  rewrite arraySort_cons, insertSorted_ties, !filter_cons, IH.
  reflexivity.
Qed.

(** *** The stable sorted rearrangement is unique *)

Lemma tied_refl a : Ordering.tied compare_items a a.
Proof. apply selector_refl. Qed.

Lemma tied_head_in w x l l' :
  filter (Ordering.tied compare_items w) l = x :: l' -> In x l.
Proof.
  intros H. apply list_elem_of_In.
  assert (Hx : x ∈ filter (Ordering.tied compare_items w) l)
    by (rewrite H; left).
  now apply list_elem_of_filter in Hx as [_ Hx].
Qed.

(** Two sorted sequences with the same tied items, in the same order, for
    every item, are the same sequence. *)
Lemma sorted_same_ties l1 : forall l2,
  Sorted precedes l1 -> Sorted precedes l2 ->
  (forall w, filter (Ordering.tied compare_items w) l1 =
             filter (Ordering.tied compare_items w) l2) ->
  l1 = l2.
Proof.
  induction l1 as [|x l1 IH]; intros [|y l2] H1 H2 Hties.
  - reflexivity.
  - specialize (Hties y). rewrite filter_cons_True in Hties by apply tied_refl.
    discriminate.
  - specialize (Hties x). rewrite filter_cons_True in Hties by apply tied_refl.
    discriminate.
  - assert (Hxy : Ordering.tied compare_items x y).
    { destruct (decide (Ordering.tied compare_items x y)) as [|Hn]; [assumption|].
      exfalso.
      assert (Hyx : ~ Ordering.tied compare_items y x).
      { intros H. apply Hn. apply selector_zero. symmetry.
        now apply selector_zero. }
      apply Sorted_StronglySorted in H1, H2;
        try (intros a b c; apply selector_trans).
      apply StronglySorted_inv in H1 as [_ H1], H2 as [_ H2].
      rewrite List.Forall_forall in H1, H2.
      pose proof (Hties x) as Hx. pose proof (Hties y) as Hy.
      rewrite filter_cons_True in Hx by apply tied_refl.
      rewrite (filter_cons_False _ y) in Hx by assumption.
      rewrite (filter_cons_True _ y) in Hy by apply tied_refl.
      rewrite (filter_cons_False _ x) in Hy by assumption.
      symmetry in Hx. apply tied_head_in in Hx, Hy.
      apply H2 in Hx. apply H1 in Hy.
      apply Hn. unfold Ordering.tied, Ordering.precedes in *.
      rewrite (selector_antisym x y) in Hx. lia. }
    assert (Heq : x = y).
    { specialize (Hties x).
      rewrite !filter_cons_True in Hties by (assumption || apply tied_refl).
      congruence. }
    subst y. f_equal. apply IH.
    + now inversion H1.
    + now inversion H2.
    + intros w. specialize (Hties w).
      destruct (decide (Ordering.tied compare_items w x)) as [Hw|Hw].
      * rewrite !filter_cons_True in Hties by assumption. congruence.
      * now rewrite !filter_cons_False in Hties by assumption.
Qed.

Lemma stable_sort_unique l sorted :
  Sorted precedes sorted ->
  (forall w, filter (Ordering.tied compare_items w) sorted =
             filter (Ordering.tied compare_items w) l) ->
  sorted = Ordering.arraySort compare_items l.
Proof.
  intros Hsorted Hties. apply sorted_same_ties.
  - assumption.
  - apply arraySort_sorted.
  - intros w. now rewrite Hties, arraySort_stable.
Qed.

End OrderingProperties.

(** C2. The comparator [sortSelector(projection)] orders items by their
    case-normalised projection: it is the sign of the comparison of the two
    keys, any two items are comparable, the order is transitive, and two
    items each preceding the other have the same key. Sorting with it
    yields a sorted rearrangement of the input; a sorted sequence is left
    as it is, so sorting twice is sorting once; the items tied with any
    given item come out in the order they went in; and the output is the
    only sorted sequence with that property, so the result is determined
    by the input. This holds for every
    case normalisation [fold]; the one [main] uses is the lower-casing of
    the ASCII letters, under which an item whose projection is the
    lower-case form of another's is tied with it. *)
Theorem sortSelector_total_idempotent_stable {T : Type}
    (fold : string -> string) (projection : T -> string) :
  let compare := Ordering.sortSelectorWith fold projection in
  (forall a b,
     compare a b =
       Ordering.sign (String.compare (fold (projection a)) (fold (projection b)))) /\
  (forall a b, Ordering.precedes compare a b \/ Ordering.precedes compare b a) /\
  (forall a b c,
     Ordering.precedes compare a b -> Ordering.precedes compare b c ->
     Ordering.precedes compare a c) /\
  (forall a b,
     Ordering.tied compare a b <-> fold (projection a) = fold (projection b)) /\
  (forall a b,
     Ordering.precedes compare a b -> Ordering.precedes compare b a ->
     Ordering.tied compare a b) /\
  (forall items,
     Sorted (Ordering.precedes compare) (Ordering.arraySort compare items) /\
     Permutation items (Ordering.arraySort compare items)) /\
  (forall items,
     Sorted (Ordering.precedes compare) items ->
     Ordering.arraySort compare items = items) /\
  (forall items,
     Ordering.arraySort compare (Ordering.arraySort compare items) =
     Ordering.arraySort compare items) /\
  (forall item items,
     filter (Ordering.tied compare item) (Ordering.arraySort compare items) =
     filter (Ordering.tied compare item) items) /\
  (forall items sorted,
     Sorted (Ordering.precedes compare) sorted ->
     (forall item,
        filter (Ordering.tied compare item) sorted =
        filter (Ordering.tied compare item) items) ->
     sorted = Ordering.arraySort compare items) /\
  Ordering.sortSelector (T := T) = Ordering.sortSelectorWith Ordering.lower /\
  (forall a b,
     projection b = Ordering.lower (projection a) ->
     Ordering.tied (Ordering.sortSelector projection) a b).
Proof.
  intros compare. subst compare.
  split; [reflexivity|].
  split; [apply selector_total|].
  split; [apply selector_trans|].
  split; [apply selector_zero|].
  split.
  { intros a b Hab Hba. unfold Ordering.tied, Ordering.precedes in *.
    rewrite (selector_antisym fold projection a b) in Hba. lia. }
  split; [intros items; split; [apply arraySort_sorted|apply arraySort_perm]|].
  split; [apply arraySort_of_sorted|].
  split; [apply arraySort_idempotent|].
  split; [apply arraySort_stable|].
  split; [apply stable_sort_unique|].
  split; [reflexivity|].
  intros a b Hb. apply selector_zero. now rewrite Hb, lower_idempotent.
Qed.

(** * Properties of paths *)

Section StringFacts.

Lemma append_cons c (s t : string) : String c s +:+ t = String c (s +:+ t).
Proof. reflexivity. Qed.

Lemma append_empty_l (t : string) : "" +:+ t = t.
Proof. reflexivity. Qed.

Lemma append_assoc (s t u : string) : (s +:+ t) +:+ u = s +:+ (t +:+ u).
Proof.
  induction s as [|c s IH]; [reflexivity|].
  now rewrite !append_cons, IH.
Qed.

Lemma append_length (s t : string) :
  String.length (s +:+ t) = String.length s + String.length t.
Proof.
  induction s as [|c s IH]; [reflexivity|].
  rewrite append_cons. simpl. now rewrite IH.
Qed.

Lemma append_eq_empty (s t : string) : s +:+ t = "" -> t = "".
Proof.
  destruct s as [|c s]; [now rewrite append_empty_l|].
  rewrite append_cons. discriminate.
Qed.

(** Cancelling a common suffix. *)
Lemma append_inj_r (t : string) : forall s1 s2 : string,
  s1 +:+ t = s2 +:+ t -> s1 = s2.
Proof.
  induction s1 as [|c1 s1 IH]; intros [|c2 s2] H.
  - reflexivity.
  - apply (f_equal String.length) in H.
    rewrite append_empty_l, append_cons in H. simpl in H.
    rewrite append_length in H. lia.
  - apply (f_equal String.length) in H.
    rewrite append_empty_l, append_cons in H. simpl in H.
    rewrite append_length in H. lia.
  - rewrite !append_cons in H. injection H as -> H.
    f_equal. now apply IH.
Qed.

Lemma has_slash_append (s t : string) :
  Str.has_slash (s +:+ t) = Str.has_slash s || Str.has_slash t.
Proof.
  induction s as [|c s IH]; [reflexivity|].
  rewrite append_cons. simpl. rewrite IH. now destruct (Ascii.eqb c Str.slash).
Qed.

Lemma parts_nonempty (s : string) : Str.parts s <> [].
Proof.
  destruct s as [|c s]; simpl; [discriminate|].
  destruct (Ascii.eqb c Str.slash); [discriminate|].
  destruct (Str.parts s); discriminate.
Qed.

Lemma parts_segment (s : string) : Str.has_slash s = false -> Str.parts s = [s].
Proof.
  induction s as [|c s IH]; simpl; [reflexivity|].
  destruct (Ascii.eqb c Str.slash); [discriminate|].
  simpl. intros Hs. now rewrite (IH Hs).
Qed.

(** Splitting a path that ends in a separator-free segment. *)
Lemma parts_child (p s : string) :
  Str.has_slash s = false ->
  Str.parts (p +:+ "/" +:+ s) = Str.parts p ++ [s].
Proof.
  intros Hs. induction p as [|c p IH].
  - rewrite append_empty_l. change ("/" +:+ s) with (String "/"%char s).
    simpl. now rewrite (parts_segment s Hs).
  - rewrite append_cons. simpl. rewrite IH.
    destruct (Ascii.eqb c Str.slash); [reflexivity|].
    pose proof (parts_nonempty p) as Hne.
    destruct (Str.parts p); [contradiction|reflexivity].
Qed.

Lemma ends_with_slash_segment (s : string) :
  Str.has_slash s = false -> Str.ends_with_slash s = false.
Proof.
  induction s as [|c s IH]; [reflexivity|].
  simpl. destruct (Ascii.eqb c Str.slash) eqn:Hc; [discriminate|].
  simpl. intros Hs. destruct s; [reflexivity|now apply IH].
Qed.

Lemma ends_with_slash_append (p s : string) :
  s <> "" -> Str.ends_with_slash (p +:+ s) = Str.ends_with_slash s.
Proof.
  intros Hs. induction p as [|c p IH]; [reflexivity|].
  rewrite append_cons. simpl. rewrite IH.
  destruct (p +:+ s) eqn:Hps; [|reflexivity].
  apply append_eq_empty in Hps. contradiction.
Qed.

Lemma isAbsolute_append (p x : string) :
  p <> "" -> Path.isAbsolute (p +:+ x) = Path.isAbsolute p.
Proof. intros Hp. destruct p as [|c p]; [contradiction|reflexivity]. Qed.

Lemma concat_snoc (sep : string) (l : list string) (s : string) :
  l <> [] ->
  String.concat sep (l ++ [s]) = String.concat sep l +:+ sep +:+ s.
Proof.
  induction l as [|x l IH]; [contradiction|]. intros _.
  destruct l as [|y l].
  - reflexivity.
  - change (String.concat sep ((x :: y :: l) ++ [s]))
      with (x +:+ sep +:+ String.concat sep ((y :: l) ++ [s])).
    rewrite IH by discriminate.
    change (String.concat sep (x :: y :: l))
      with (x +:+ sep +:+ String.concat sep (y :: l)).
    now rewrite !append_assoc.
Qed.

End StringFacts.

Section PathFacts.

Lemma push_plain allow stack s :
  plainSegment s -> Path.push_segment allow stack s = s :: stack.
Proof.
  intros (_ & H1 & H2 & H3). unfold Path.push_segment.
  apply String.eqb_neq in H1, H2, H3. now rewrite H1, H2, H3.
Qed.

Lemma normalize_stack_child allow segs s :
  plainSegment s ->
  Path.normalize_stack allow (segs ++ [s]) = s :: Path.normalize_stack allow segs.
Proof.
  intros Hs. unfold Path.normalize_stack.
  rewrite fold_left_app. simpl. now apply push_plain.
Qed.

Lemma endsIn_stack allow t p :
  plainSegment t -> EndsIn t p ->
  exists below, Path.normalize_stack allow (Str.parts p) = t :: below.
Proof.
  intros Ht [|dir].
  - exists []. rewrite parts_segment by apply Ht.
    unfold Path.normalize_stack. simpl. now apply push_plain.
  - eexists. rewrite parts_child by apply Ht.
    now apply normalize_stack_child.
Qed.

Lemma endsIn_nonempty t p : plainSegment t -> EndsIn t p -> p <> "".
Proof.
  intros (_ & Ht & _) [|dir]; [assumption|].
  intros H. apply append_eq_empty in H. discriminate.
Qed.

Lemma endsIn_no_trailing_slash t p :
  plainSegment t -> EndsIn t p -> Str.ends_with_slash p = false.
Proof.
  intros Ht [|dir].
  - apply ends_with_slash_segment, Ht.
  - change (dir +:+ "/" +:+ t) with (dir +:+ ("/" +:+ t)).
    rewrite ends_with_slash_append by discriminate.
    change ("/" +:+ t) with ("/" +:+ t).
    rewrite (ends_with_slash_append "/" t) by apply Ht.
    apply ends_with_slash_segment, Ht.
Qed.

Lemma normalizeString_endsIn allow t p :
  plainSegment t -> EndsIn t p ->
  Path.normalizeString p allow <> "".
Proof.
  intros Ht Hp. destruct (endsIn_stack allow t p Ht Hp) as [below Hst].
  unfold Path.normalizeString, Str.join. rewrite Hst. simpl.
  destruct (rev below) as [|x l] eqn:Hrev.
  - simpl. apply Ht.
  - rewrite concat_snoc by discriminate.
    intros H. apply append_eq_empty in H. apply append_eq_empty in H.
    destruct Ht as (_ & Ht & _). contradiction.
Qed.

(** Normalising a path one plain segment below a path that ends in a
    plain segment appends that segment. *)
Lemma normalize_child t p s :
  plainSegment t -> EndsIn t p -> plainSegment s ->
  Path.normalize (p +:+ "/" +:+ s) = Path.normalize p +:+ "/" +:+ s.
Proof.
  intros Ht Hp Hs.
  pose proof (endsIn_nonempty t p Ht Hp) as Hne.
  assert (Hs' : EndsIn s (p +:+ "/" +:+ s)) by constructor.
  unfold Path.normalize.
  apply String.eqb_neq in Hne as Hne1. rewrite Hne1.
  pose proof (endsIn_nonempty s _ Hs Hs') as Hne2.
  apply String.eqb_neq in Hne2. rewrite Hne2.
  rewrite (isAbsolute_append p _ Hne).
  rewrite (endsIn_no_trailing_slash t p Ht Hp).
  rewrite (endsIn_no_trailing_slash s _ Hs Hs').
  set (allow := negb (Path.isAbsolute p)).
  pose proof (normalizeString_endsIn allow t p Ht Hp) as Hn1.
  pose proof (normalizeString_endsIn allow s _ Hs Hs') as Hn2.
  apply String.eqb_neq in Hn1, Hn2. rewrite Hn1, Hn2.
  assert (Hstr : Path.normalizeString (p +:+ "/" +:+ s) allow =
                 Path.normalizeString p allow +:+ "/" +:+ s).
  { unfold Path.normalizeString, Str.join.
    rewrite parts_child by apply Hs.
    rewrite normalize_stack_child by assumption.
    destruct (endsIn_stack allow t p Ht Hp) as [below Hst]. rewrite Hst.
    change (rev (s :: t :: below)) with (rev (t :: below) ++ [s]).
    apply concat_snoc. simpl. now destruct (rev below). }
  rewrite Hstr.
  destruct (Path.isAbsolute p); [|reflexivity].
  now rewrite append_assoc.
Qed.

Lemma plain_markdown_name (name : string) :
  Str.has_slash name = false -> plainSegment (name +:+ ".md").
Proof.
  intros Hn. split; [|split; [|split]].
  - rewrite has_slash_append, Hn. reflexivity.
  - intros H. apply append_eq_empty in H. discriminate.
  - intros H. apply (f_equal String.length) in H.
    rewrite append_length in H. simpl in H. lia.
  - intros H. apply (f_equal String.length) in H.
    rewrite append_length in H. simpl in H. lia.
Qed.

Lemma plain_docs : plainSegment "docs".
Proof. repeat split; discriminate. Qed.

(** [join(dir, 'docs', file)] for a plain [file] is the file directly
    below [join(dir, 'docs')]. *)
Lemma join_docs_child (dir file : string) :
  plainSegment file ->
  Path.join [dir; "docs"; file] = Path.join [dir; "docs"] +:+ "/" +:+ file.
Proof.
  intros Hf. unfold Path.join.
  assert (Hfile : Path.nonempty file = true).
  { unfold Path.nonempty. destruct Hf as (_ & Hf & _).
    apply String.eqb_neq in Hf. now rewrite Hf. }
  rewrite !filter_cons, filter_nil.
  destruct (decide (Is_true (Path.nonempty file))) as [_|Hn];
    [|rewrite Hfile in Hn; now elim Hn].
  destruct (decide (Is_true (Path.nonempty "docs"))) as [_|Hn];
    [|now elim Hn].
  destruct (decide (Is_true (Path.nonempty dir))) as [_|_].
  - change (Str.join "/" [dir; "docs"; file])
      with (dir +:+ "/" +:+ "docs" +:+ "/" +:+ file).
    change (Str.join "/" [dir; "docs"]) with (dir +:+ "/" +:+ "docs").
    rewrite <- (normalize_child "docs" (dir +:+ "/" +:+ "docs") file
                  plain_docs (ends_below "docs" dir) Hf).
    now rewrite !append_assoc.
  - change (Str.join "/" ["docs"; file]) with ("docs" +:+ "/" +:+ file).
    change (Str.join "/" ["docs"]) with "docs".
    now rewrite <- (normalize_child "docs" "docs" file
                      plain_docs (ends_alone "docs") Hf).
Qed.

End PathFacts.

(** * The files [main] writes *)

Section Written.
Variable env : Env.

Lemma writeFileRequests_app tr1 tr2 :
  writeFileRequests (tr1 ++ tr2) = writeFileRequests tr1 ++ writeFileRequests tr2.
Proof. apply flat_map_app. Qed.

Lemma writeFileSyncRequests_app tr1 tr2 :
  writeFileSyncRequests (tr1 ++ tr2) =
  writeFileSyncRequests tr1 ++ writeFileSyncRequests tr2.
Proof. apply flat_map_app. Qed.

Lemma writeFileRequests_writeEvents writes :
  writeFileRequests (writeEvents writes) = writes.
Proof.
  induction writes as [|[path data] writes IH]; [reflexivity|].
  simpl. now rewrite IH.
Qed.

Lemma writeFileSyncRequests_writeEvents writes :
  writeFileSyncRequests (writeEvents writes) = [].
Proof. induction writes as [|w writes IH]; [reflexivity|exact IH]. Qed.

Lemma discover_requests fuel tr0 outcome :
  discover env fuel [] = (tr0, outcome) ->
  writeFileRequests tr0 = [] /\ writeFileSyncRequests tr0 = [].
Proof.
  intros Hdisc. apply discover_no_fs_request in Hdisc.
  induction Hdisc as [|ev tr Hev _ [IH1 IH2]]; [now split|].
  destruct ev; try discriminate; now split.
Qed.

(** The trace of a run whose documents are built and whose docs
    directory is in place. *)
Lemma main_after_build fuel tr0 program apis docs :
  discover env fuel [] = (tr0, Returned (program, apis)) ->
  buildDocs env program apis = inr docs ->
  ensureDirSync env (docsDir env) = None ->
  exists rest outcome,
    main env fuel [] =
      (tr0 ++ [EnsureDirSync (docsDir env)]
           ++ writeEvents (docWrites env docs) ++ rest, outcome) /\
    (rest = [] \/
     rest = [WriteFileSync (mkdocsYaml env) (manifest docs) "utf8"]) /\
    (awaitWrites env (docWrites env docs) = None ->
     rest = [WriteFileSync (mkdocsYaml env) (manifest docs) "utf8"]).
Proof.
  intros Hdisc Hbuild Hdir. rewrite main_cases, Hdisc. cbn [fst snd].
  rewrite generate_cases, Hbuild, Hdir. cbn zeta.
  destruct (awaitWrites env (docWrites env docs)) as [e|].
  - exists [], (Thrown e). rewrite app_nil_r, <- app_assoc.
    split; [reflexivity|]. split; [now left|discriminate].
  - destruct (writeFileSync env (mkdocsYaml env) (manifest docs) "utf8");
      eexists [_], _; (split; [|split; [now right|reflexivity]]);
      now rewrite <- !app_assoc.
Qed.

Lemma docPath_plain doc :
  Str.has_slash (name doc) = false ->
  docPath env doc =
    Path.join [apiRefsDir env; "docs"] +:+ "/" +:+ name doc +:+ ".md".
Proof.
  intros Hn. unfold docPath.
  now rewrite (join_docs_child _ _ (plain_markdown_name _ Hn)).
Qed.

Lemma docPath_injective d1 d2 :
  Str.has_slash (name d1) = false -> Str.has_slash (name d2) = false ->
  docPath env d1 = docPath env d2 -> name d1 = name d2.
Proof.
  intros H1 H2. rewrite (docPath_plain d1 H1), (docPath_plain d2 H2).
  intros H. apply (inj (String.app _)) in H. apply (inj (String.app _)) in H.
  now apply append_inj_r in H.
Qed.

End Written.

(** ** Absolute paths *)

Section Absolute.

Lemma resolve_from_absolute args cwd acc a :
  In a args -> Path.isAbsolute a = true ->
  snd (Path.resolve_from args cwd acc) = true.
Proof.
  revert acc. induction args as [|b args IH]; intros acc Hin Ha; [destruct Hin|].
  simpl. destruct (String.eqb b "") eqn:Hb.
  - destruct Hin as [->|Hin]; [|now apply IH].
    apply String.eqb_eq in Hb. subst a. discriminate.
  - destruct (Path.isAbsolute b) eqn:Hab; [reflexivity|].
    destruct Hin as [->|Hin]; [congruence|now apply IH].
Qed.

Lemma resolve_absolute cwd args a :
  In a args -> Path.isAbsolute a = true ->
  Path.isAbsolute (Path.resolve cwd args) = true.
Proof.
  intros Hin Ha. unfold Path.resolve.
  pose proof (resolve_from_absolute (rev args) cwd "" a
                (proj1 (in_rev args a) Hin) Ha) as Hflag.
  destruct (Path.resolve_from (rev args) cwd "") as [p flag].
  simpl in Hflag. subst flag. reflexivity.
Qed.

Lemma apiRefsDir_absolute env :
  Path.isAbsolute (dirname__ env) = true ->
  Path.isAbsolute (apiRefsDir env) = true.
Proof.
  intros Habs. unfold apiRefsDir.
  apply (resolve_absolute _ _ (rootDir env)); [now left|].
  unfold rootDir. apply (resolve_absolute _ _ (dirname__ env)); [now left|].
  assumption.
Qed.

(** The directory [main] ensures is the directory it writes into. *)
Lemma docsDir_is_join env :
  Path.isAbsolute (dirname__ env) = true ->
  docsDir env = Path.join [apiRefsDir env; "docs"].
Proof.
  intros Habs. apply apiRefsDir_absolute in Habs.
  unfold docsDir. generalize dependent (apiRefsDir env). intros dir Habs.
  assert (Hne : dir <> "") by (intros ->; discriminate).
  unfold Path.resolve, Path.join. simpl rev. simpl Path.resolve_from.
  apply String.eqb_neq in Hne as Hne'. rewrite Hne', Habs.
  rewrite !filter_cons, filter_nil.
  destruct (decide (Is_true (Path.nonempty "docs"))) as [_|Hn]; [|now elim Hn].
  destruct (decide (Is_true (Path.nonempty dir))) as [_|Hn].
  2:{ elim Hn. unfold Path.nonempty. now rewrite Hne'. }
  change (Str.join "/" [dir; "docs"]) with (dir +:+ "/" +:+ "docs").
  pose proof (ends_below "docs" dir) as Hends.
  unfold Path.normalize.
  pose proof (endsIn_nonempty _ _ plain_docs Hends) as Hne2.
  apply String.eqb_neq in Hne2. rewrite Hne2.
  rewrite (isAbsolute_append dir _ Hne), Habs.
  rewrite (endsIn_no_trailing_slash _ _ plain_docs Hends).
  pose proof (normalizeString_endsIn (negb true) _ _ plain_docs Hends) as Hn.
  apply String.eqb_neq in Hn. rewrite Hn.
  f_equal. unfold Path.normalizeString. f_equal. f_equal.
  change (dir +:+ "/" +:+ "docs" +:+ "/" +:+ "")
    with (dir +:+ "/" +:+ ("docs" +:+ "/" +:+ "")).
  replace (dir +:+ "/" +:+ ("docs" +:+ "/" +:+ ""))
    with ((dir +:+ "/" +:+ "docs") +:+ "/" +:+ "")
    by now rewrite !append_assoc.
  rewrite (parts_child _ "") by reflexivity.
  unfold Path.normalize_stack. now rewrite fold_left_app.
Qed.

End Absolute.

(** C7. Once the documents are built and sorted and the docs directory is
    in place, [main] issues exactly one [writeFile] request per document,
    in the order of the set, to [join(apiRefsDir, 'docs', name + '.md')]
    and carrying the printed document. When the names of the documents
    hold no path separator (they are exported identifiers), that path is
    [<name>.md] directly below [join(apiRefsDir, 'docs')], and two
    documents of the set get different paths exactly when their names
    differ. The directory written into is the ensured directory when
    [__dirname] is absolute. *)
Theorem one_markdown_file_per_document (env : Env) (fuel : nat)
    (tr0 : list Event) (program : Program) (apis : list ApiInstance)
    (docs : list ApiDoc)
    (Hdisc : discover env fuel [] = (tr0, Returned (program, apis)))
    (Hbuild : buildDocs env program apis = inr docs)
    (Hdir : ensureDirSync env (docsDir env) = None) :
  exists tr outcome,
    main env fuel [] = (tr, outcome) /\
    writeFileRequests tr =
      map (fun doc =>
             (Path.join [apiRefsDir env; "docs"; name doc +:+ ".md"],
              print env doc)) docs /\
    (Forall (fun doc => Str.has_slash (name doc) = false) docs ->
     (forall doc, In doc docs ->
        docPath env doc =
          Path.join [apiRefsDir env; "docs"] +:+ "/" +:+ name doc +:+ ".md") /\
     (forall d1 d2, In d1 docs -> In d2 docs ->
        (docPath env d1 <> docPath env d2 <-> name d1 <> name d2))) /\
    (Path.isAbsolute (dirname__ env) = true ->
     docsDir env = Path.join [apiRefsDir env; "docs"]).
Proof.
  destruct (main_after_build env fuel tr0 program apis docs Hdisc Hbuild Hdir)
    as (rest & outcome & Hmain & Hrest & _).
  eexists _, outcome. split; [exact Hmain|]. split; [|split].
  - rewrite !writeFileRequests_app, writeFileRequests_writeEvents.
    destruct (discover_requests env fuel tr0 _ Hdisc) as [-> _].
    destruct Hrest as [-> | ->]; simpl; now rewrite app_nil_r.
  - intros Hnames. rewrite List.Forall_forall in Hnames. split.
    + intros doc Hin. apply docPath_plain. now apply Hnames.
    + intros d1 d2 H1 H2. split.
      * intros Hp Hn. apply Hp. unfold docPath. now rewrite Hn.
      * intros Hn Hp. apply Hn.
        apply (docPath_injective env d1 d2); auto.
  - apply docsDir_is_join.
Qed.

(** C3. Once the documents are built and sorted and the markdown files are
    written, [main] asks for one synchronous write, of [mkdocs.yml], whose
    text is the line [site_name: api-references], the line [nav:] and then
    one line [  - <id>: '<name>.md'] per document, in the order of the
    sorted document set; that set is the sorted rearrangement of the
    documents built from the discovered calls. Two calls whose documents
    have the ids [a.ref] and [b.ref] give the same manifest, [a.ref]
    first, in either order of discovery. *)
Theorem manifest_lists_documents_in_sorted_order (env : Env) (fuel : nat) :
  (forall tr0 program apis docs,
     discover env fuel [] = (tr0, Returned (program, apis)) ->
     buildDocs env program apis = inr docs ->
     ensureDirSync env (docsDir env) = None ->
     awaitWrites env (docWrites env docs) = None ->
     exists tr outcome,
       main env fuel [] = (tr, outcome) /\
       writeFileSyncRequests tr =
         [(mkdocsYaml env,
           Str.join Str.newline
             ("site_name: api-references" :: "nav:" ::
                map (fun doc => "  - " +:+ id doc +:+ ": '" +:+ name doc +:+ ".md'")
                    docs),
           "utf8")] /\
       Sorted (Ordering.precedes (Ordering.sortSelector id)) docs /\
       exists built,
         Forall2 (fun api doc =>
                    toDoc env program (rootDir env) (srcDir env) api = inr doc)
                 apis built /\
         Permutation built docs /\
         docs = Ordering.arraySort (Ordering.sortSelector id) built) /\
  (forall program x y a b,
     toDoc env program (rootDir env) (srcDir env) x = inr a ->
     toDoc env program (rootDir env) (srcDir env) y = inr b ->
     id a = "a.ref" -> id b = "b.ref" ->
     buildDocs env program [x; y] = inr [a; b] /\
     buildDocs env program [y; x] = inr [a; b] /\
     manifest [a; b] =
       "site_name: api-references" +:+ Str.newline +:+
       "nav:" +:+ Str.newline +:+
       "  - a.ref: '" +:+ name a +:+ ".md'" +:+ Str.newline +:+
       "  - b.ref: '" +:+ name b +:+ ".md'").
Proof.
  split.
  - intros tr0 program apis docs Hdisc Hbuild Hdir Hwrites.
    destruct (main_after_build env fuel tr0 program apis docs Hdisc Hbuild Hdir)
      as (rest & outcome & Hmain & _ & Hrest).
    rewrite (Hrest Hwrites) in Hmain.
    eexists _, outcome. split; [exact Hmain|]. split.
    { rewrite !writeFileSyncRequests_app, writeFileSyncRequests_writeEvents.
      destruct (discover_requests env fuel tr0 _ Hdisc) as [_ ->].
      reflexivity. }
    apply buildDocs_returns in Hbuild as (built & Hall & ->).
    split; [apply arraySort_sorted|].
    exists built. split; [assumption|]. split; [apply arraySort_perm|reflexivity].
  - intros program x y a b Hx Hy Ha Hb.
    assert (Hab : Ordering.sortSelector id a b = (-1)%Z).
    { unfold Ordering.sortSelector, Ordering.sortSelectorWith.
      now rewrite Ha, Hb. }
    assert (Hba : Ordering.sortSelector id b a = 1%Z).
    { unfold Ordering.sortSelector, Ordering.sortSelectorWith.
      now rewrite Ha, Hb. }
    split; [|split].
    + unfold buildDocs. simpl. unfold buildDoc. rewrite Hx, Hy.
      unfold Ordering.arraySort. simpl. now rewrite Hab.
    + unfold buildDocs. simpl. unfold buildDoc. rewrite Hx, Hy.
      unfold Ordering.arraySort. simpl. now rewrite Hba.
    + unfold manifest. cbn [map]. unfold navEntry. rewrite Ha, Hb.
      unfold Str.join. cbn [String.concat]. rewrite !append_assoc. reflexivity.
Qed.

(** * The statements on the sample environment *)

Lemma no_artifact_when_toDoc_fails_witness :
  exists error result,
    main Sample.envBroken 3 [] = (Sample.discovered, Thrown error) /\
    run Sample.envBroken 3 = Some result /\
    exitStatus result = 1%Z /\
    Forall (fun ev => isFsRequest ev = false) (events result).
Proof.
  apply (no_artifact_when_toDoc_fails Sample.envBroken 3 Sample.discovered
           Sample.program
           [Sample.storageApi; Sample.brokenApi; Sample.alertApi]
           Sample.brokenApi Sample.brokenCause).
  - vm_compute. reflexivity.
  - simpl. right. left. reflexivity.
  - reflexivity.
Defined.

Lemma toDoc_failure_aborts_run_witness :
  message (docGenerationError Sample.envBroken Sample.brokenApi Sample.brokenCause) =
    "Doc generation failed for API in /repo/packages/core-api/src/broken.ts, Error: unsupported type" /\
  main Sample.envBroken 3 [] =
    (Sample.discovered,
     Thrown (docGenerationError Sample.envBroken Sample.brokenApi Sample.brokenCause)) /\
  run Sample.envBroken 3 =
    Some (mkProcessResult
            (Sample.discovered ++
               [ConsoleError
                  (LogText "Error: Doc generation failed for API in /repo/packages/core-api/src/broken.ts, Error: unsupported type");
                Exit 1]) 1).
Proof.
  destruct (toDoc_failure_aborts_run Sample.envBroken 3 Sample.discovered
              Sample.program [Sample.storageApi] [Sample.alertApi]
              Sample.brokenApi Sample.brokenCause)
    as (Hmsg & _ & Hmain & _ & Hrun).
  - vm_compute. reflexivity.
  - constructor; [|constructor]. exists Sample.storageDoc. reflexivity.
  - reflexivity.
  - split; [exact Hmsg|]. split; [exact Hmain|exact Hrun].
Defined.

Lemma loadOptions_merges_parent_witness :
  exists merged,
    loads Sample.env "../../../tsconfig.json" (Some merged) /\
    merged !! "target" = Some (VStr "esnext") /\
    merged !! "noEmit" = Some (VBool false) /\
    merged !! "removeComments" = Some (VBool true) /\
    merged !! "moduleResolution" = Some (VStr "node").
Proof.
  pose proof (loadOptions_merges_parent Sample.env "../../../tsconfig.json"
                (mkConfig (Some "./tsconfig.base.json") (Some Sample.rootOptions))
                eq_refl) as H.
  change (declaredParent
            (mkConfig (Some "./tsconfig.base.json") (Some Sample.rootOptions)))
    with (Some "./tsconfig.base.json") in H.
  destruct (H (Some Sample.baseOptions)) as (merged & Hloads & Hchild & Hparent).
  { exists 1. reflexivity. }
  exists merged. split; [exact Hloads|].
  split; [apply Hchild; reflexivity|].
  split; [apply Hchild; reflexivity|].
  split; [rewrite Hparent; reflexivity|rewrite Hparent; reflexivity].
Defined.

Lemma createProgram_comment_and_emit_overrides_witness :
  In (CreateProgram [entrypoint Sample.env] (adjustOptions Sample.loadedOptions))
     (fst (main Sample.env 3 [])) /\
  adjustOptions Sample.loadedOptions !! "removeComments" = Some (VBool false) /\
  adjustOptions Sample.loadedOptions !! "noEmit" = Some (VBool true).
Proof.
  destruct (createProgram_comment_and_emit_overrides Sample.env 3
              (fst (main Sample.env 3 [])) (snd (main Sample.env 3 [])))
    as [Hall Hreached].
  - now destruct (main Sample.env 3 []).
  - assert (Hin : In (CreateProgram [entrypoint Sample.env]
                        (adjustOptions Sample.loadedOptions))
                     (fst (main Sample.env 3 []))).
    { apply Hreached. reflexivity. }
    destruct (Hall _ _ Hin) as (H1 & H2 & _).
    split; [exact Hin|]. split; [exact H1|exact H2].
Defined.

Lemma createProgram_frame_witness :
  exists loaded,
    loadOptions Sample.env 3 tsconfig = Returned (Some loaded) /\
    adjustOptions Sample.loadedOptions !! "moduleResolution" = None /\
    (forall key,
       key <> "removeComments" -> key <> "noEmit" ->
       key <> "moduleResolution" ->
       adjustOptions Sample.loadedOptions !! key = loaded !! key).
Proof.
  apply (createProgram_frame Sample.env 3 (fst (main Sample.env 3 []))
           (snd (main Sample.env 3 [])) [entrypoint Sample.env]
           (adjustOptions Sample.loadedOptions)).
  - now destruct (main Sample.env 3 []).
  - vm_compute. right. left. reflexivity.
Defined.

Lemma exit_status_reflects_failure_witness :
  run Sample.envBroken 3 =
    Some (mkProcessResult
            (Sample.discovered ++
               [ConsoleError
                  (report (docGenerationError Sample.envBroken
                             Sample.brokenApi Sample.brokenCause));
                Exit 1]) 1) /\
  (exists events,
     run Sample.env 3 = Some (mkProcessResult events 0) /\
     Forall (fun ev => isReport ev = false) events).
Proof.
  destruct (exit_status_reflects_failure Sample.envBroken 3)
    as (_ & Hbuild & _).
  destruct (exit_status_reflects_failure Sample.env 3)
    as (_ & _ & _ & Hok & _).
  split.
  - apply (Hbuild Sample.discovered Sample.program
             [Sample.storageApi; Sample.brokenApi; Sample.alertApi]).
    + vm_compute. reflexivity.
    + reflexivity.
  - apply (Hok Sample.discovered Sample.program
             [Sample.storageApi; Sample.alertApi]
             [Sample.alertDoc; Sample.storageDoc]).
    + vm_compute. reflexivity.
    + reflexivity.
    + reflexivity.
    + reflexivity.
    + reflexivity.
Defined.

Lemma sortSelector_total_idempotent_stable_witness :
  Ordering.arraySort (Ordering.sortSelector id)
    [Sample.alertDoc; mkApiDoc "A.REF" "upperApiRef" ""; Sample.storageDoc] =
    [Sample.alertDoc; mkApiDoc "A.REF" "upperApiRef" ""; Sample.storageDoc] /\
  Ordering.tied (Ordering.sortSelector id)
    Sample.alertDoc (mkApiDoc "A.REF" "upperApiRef" "").
Proof.
  destruct (sortSelector_total_idempotent_stable Ordering.lower id)
    as (_ & _ & _ & Htied & _ & _ & Hsorted & _).
  split.
  - apply Hsorted. repeat constructor; vm_compute; discriminate.
  - apply Htied. reflexivity.
Defined.

Lemma one_markdown_file_per_document_witness :
  exists tr outcome,
    main Sample.env 3 [] = (tr, outcome) /\
    writeFileRequests tr =
      [("/repo/packages/docgen/dist/docs/alertApiRef.md", "# alertApiRef");
       ("/repo/packages/docgen/dist/docs/storageApiRef.md", "# storageApiRef")] /\
    docPath Sample.env Sample.alertDoc <> docPath Sample.env Sample.storageDoc.
Proof.
  destruct (one_markdown_file_per_document Sample.env 3 Sample.discovered
              Sample.program [Sample.storageApi; Sample.alertApi]
              [Sample.alertDoc; Sample.storageDoc])
    as (tr & outcome & Hmain & Hwrites & Hplain & _).
  - vm_compute. reflexivity.
  - reflexivity.
  - reflexivity.
  - exists tr, outcome. split; [exact Hmain|]. split; [exact Hwrites|].
    destruct Hplain as [_ Hdistinct]; [repeat constructor|].
    apply Hdistinct; [now left|right; now left|discriminate].
Defined.

Lemma manifest_lists_documents_in_sorted_order_witness :
  (exists tr outcome,
     main Sample.env 3 [] = (tr, outcome) /\
     writeFileSyncRequests tr =
       [("/repo/packages/docgen/dist/mkdocs.yml",
         "site_name: api-references" +:+ Str.newline +:+
         "nav:" +:+ Str.newline +:+
         "  - a.ref: 'alertApiRef.md'" +:+ Str.newline +:+
         "  - b.ref: 'storageApiRef.md'",
         "utf8")]) /\
  buildDocs Sample.env Sample.program [Sample.alertApi; Sample.storageApi] =
    inr [Sample.alertDoc; Sample.storageDoc] /\
  buildDocs Sample.env Sample.program [Sample.storageApi; Sample.alertApi] =
    inr [Sample.alertDoc; Sample.storageDoc].
Proof.
  destruct (manifest_lists_documents_in_sorted_order Sample.env 3)
    as [Hgeneral Hscenario].
  split.
  - destruct (Hgeneral Sample.discovered Sample.program
                [Sample.storageApi; Sample.alertApi]
                [Sample.alertDoc; Sample.storageDoc])
      as (tr & outcome & Hmain & Hsync & _).
    + vm_compute. reflexivity.
    + reflexivity.
    + reflexivity.
    + reflexivity.
    + exists tr, outcome. split; [exact Hmain|exact Hsync].
  - destruct (Hscenario Sample.program Sample.alertApi Sample.storageApi
                Sample.alertDoc Sample.storageDoc)
      as (H1 & H2 & _); try reflexivity.
    split; [exact H1|exact H2].
Defined.

(** * Further properties of [loadOptions] *)

Section ChainFacts.
Variable env : Env.

Lemma chain_breaks_throws path e :
  ChainBreaks env path e ->
  exists n, forall fuel, n < fuel -> loadOptions env fuel path = Thrown e.
Proof.
  induction 1 as [path e Hreq | path config parent e Hreq Hpar _ [n IH]].
  - exists 0. intros [|fuel] Hlt; [lia|].
    now rewrite loadOptions_step, Hreq.
  - exists (S n). intros [|fuel] Hlt; [lia|].
    rewrite loadOptions_step, Hreq, Hpar, IH; [reflexivity|lia].
Qed.

Lemma chain_nearest path configs :
  Chain env path configs ->
  exists result,
    (forall fuel, length configs <= fuel ->
       loadOptions env fuel path = Returned result) /\
    (forall key, spread result !! key = nearest key configs).
Proof.
  induction 1 as [path config Hreq Hpar
                 | path config parent rest Hreq Hpar _ (parentOptions & IHload & IHkeys)].
  - exists (compilerOptions config). split.
    + intros [|fuel] Hle; [simpl in Hle; lia|].
      now rewrite loadOptions_step, Hreq, Hpar.
    + intros key. simpl. now destruct (spread (compilerOptions config) !! key).
  - exists (Some (spread2 parentOptions (compilerOptions config))). split.
    + intros [|fuel] Hle; [simpl in Hle; lia|].
      rewrite loadOptions_step, Hreq, Hpar, IHload; [reflexivity|].
      simpl in Hle. lia.
    + intros key.
      change (spread (Some (spread2 parentOptions (compilerOptions config))))
        with (spread2 parentOptions (compilerOptions config)).
      cbn [nearest]. rewrite spread2_lookup.
      destruct (spread (compilerOptions config) !! key); [reflexivity|].
      apply IHkeys.
Qed.

Lemma chain_loads path configs result :
  Chain env path configs -> loads env path result ->
  forall key, spread result !! key = nearest key configs.
Proof.
  intros Hchain Hloads.
  destruct (chain_nearest path configs Hchain) as (result' & Hload & Hkeys).
  assert (result = result') as ->; [|exact Hkeys].
  apply (loads_deterministic env path); [assumption|].
  exists (length configs). now apply Hload.
Qed.

(** A chain of [n] links is a chain of [n + 1] configurations, and what
    [loadOptions] returns on it is the merge of them. *)
Lemma chainEnds_result path n :
  ChainEnds env path n ->
  exists configs result,
    Chain env path configs /\
    length configs = S n /\
    (forall fuel, n < fuel -> loadOptions env fuel path = Returned result) /\
    (forall key, spread result !! key = nearest key configs) /\
    (0 < n -> exists merged, result = Some merged) /\
    (n = 0 -> exists config, configs = [config] /\ result = compilerOptions config).
Proof.
  induction 1 as [path config Hreq Hpar
                 | path config parent n Hreq Hpar _
                     (rest & parentOptions & Hchain & Hlen & Hload & Hkeys & _)].
  - exists [config], (compilerOptions config).
    split; [now apply chain_last|]. split; [reflexivity|].
    split; [|split; [|split]].
    + intros [|fuel] Hlt; [lia|]. now rewrite loadOptions_step, Hreq, Hpar.
    + intros key. simpl. now destruct (spread (compilerOptions config) !! key).
    + lia.
    + intros _. now exists config.
  - exists (config :: rest), (Some (spread2 parentOptions (compilerOptions config))).
    split; [now apply (chain_next env path config parent)|].
    split; [simpl; now rewrite Hlen|].
    split; [|split; [|split]].
    + intros [|fuel] Hlt; [lia|].
      rewrite loadOptions_step, Hreq, Hpar, Hload; [reflexivity|lia].
    + intros key.
      change (spread (Some (spread2 parentOptions (compilerOptions config))))
        with (spread2 parentOptions (compilerOptions config)).
      cbn [nearest]. rewrite spread2_lookup.
      destruct (spread (compilerOptions config) !! key); [reflexivity|].
      apply Hkeys.
    + intros _. now eexists.
    + discriminate.
Qed.

End ChainFacts.

(** X1. When [require] fails on a file of the [extends] chain, the files
    before it loading, [loadOptions] throws that very error, for every
    fuel above the depth at which the file sits: nothing catches or wraps
    it. *)
Theorem loadOptions_rethrows_require_failure (env : Env) (path : string)
    (e : JsError) (Hbreaks : ChainBreaks env path e) :
  exists n, forall fuel, n < fuel -> loadOptions env fuel path = Thrown e.
Proof. now apply chain_breaks_throws. Qed.

(** X2. Along an [extends] chain whose files all load, [loadOptions]
    returns, and each key of the result has the value given by the nearest
    configuration of the chain that sets it, the file itself first; a key
    that no configuration of the chain sets is absent. *)
Theorem loadOptions_nearest_definition_wins (env : Env) (path : string)
    (configs : list Config) (Hchain : Chain env path configs) :
  exists result,
    (forall fuel, length configs <= fuel ->
       loadOptions env fuel path = Returned result) /\
    (forall key, spread result !! key = nearest key configs) /\
    (forall key,
       spread result !! key = None <->
       Forall (fun config => spread (compilerOptions config) !! key = None)
              configs).
Proof.
  destruct (chain_nearest env path configs Hchain) as (result & Hload & Hkeys).
  exists result. split; [assumption|]. split; [assumption|].
  intros key. rewrite Hkeys. clear.
  induction configs as [|config rest IH]; simpl.
  - split; [constructor|reflexivity].
  - destruct (spread (compilerOptions config) !! key) as [value|] eqn:Hkey.
    + split; [discriminate|]. inversion 1; congruence.
    + rewrite IH. split.
      * intros Hrest. now constructor.
      * now inversion 1.
Qed.

(** * Further properties of [main] *)

Section RunFacts.
Variable env : Env.

Lemma run_without_options fuel error :
  discover env fuel [] = ([Chdir (rootDir env)], Thrown error) ->
  run env fuel =
    Some (mkProcessResult
            [Chdir (rootDir env); ConsoleError (report error); Exit 1] 1).
Proof.
  intros Hdisc. unfold run. now rewrite main_cases, Hdisc.
Qed.

Lemma run_after_discover fuel tr0 program apis :
  discover env fuel [] = (tr0, Returned (program, apis)) ->
  main env fuel [] = generate env program apis tr0.
Proof. intros Hdisc. now rewrite main_cases, Hdisc. Qed.

End RunFacts.

(** X3. When a file of the [extends] chain of the root configuration
    cannot be loaded, the run changes directory and nothing else: no
    program is created, nothing is asked of the file system, the loader's
    own error is reported and the exit status is 1. *)
Theorem run_reports_unloadable_configuration (env : Env) (e : JsError)
    (Hbreaks : ChainBreaks env tsconfig e) :
  exists n, forall fuel, n < fuel ->
    run env fuel =
      Some (mkProcessResult
              [Chdir (rootDir env); ConsoleError (report e); Exit 1] 1).
Proof.
  destruct (chain_breaks_throws env tsconfig e Hbreaks) as [n Hn].
  exists n. intros fuel Hlt. apply run_without_options.
  now rewrite discover_cases, (Hn fuel Hlt).
Qed.

(** X4. A root configuration that declares no parent and has no
    [compilerOptions] makes [loadOptions] return [undefined]; the
    [delete] on it throws, so the run ends with exit status 1 before any
    program is created. *)
Theorem run_fails_on_missing_compilerOptions (env : Env) (config : Config)
    (Hload : require_ env tsconfig = inr config)
    (Hparent : declaredParent config = None)
    (Hoptions : compilerOptions config = None) :
  (forall fuel, 0 < fuel -> loadOptions env fuel tsconfig = Returned None) /\
  exists error, forall fuel, 0 < fuel ->
    run env fuel =
      Some (mkProcessResult
              [Chdir (rootDir env); ConsoleError (report error); Exit 1] 1).
Proof.
  assert (Hret : forall fuel, 0 < fuel ->
            loadOptions env fuel tsconfig = Returned None).
  { intros [|fuel] Hlt; [lia|].
    now rewrite loadOptions_step, Hload, Hparent, Hoptions. }
  split; [exact Hret|].
  eexists. intros fuel Hlt. apply run_without_options.
  rewrite discover_cases, (Hret fuel Hlt). reflexivity.
Qed.

(** X5. Along an [extends] chain whose files all load, the option set of
    every program creation holds, for each key other than the three that
    [main] assigns or deletes, the value of the nearest configuration of
    the chain that sets the key, and no value when none sets it. *)
Theorem createProgram_sees_nearest_definition (env : Env) (fuel : nat)
    (configs : list Config) (tr : list Event) (outcome : Outcome unit)
    (files : list string) (options : Options)
    (Hchain : Chain env tsconfig configs)
    (Hrun : main env fuel [] = (tr, outcome))
    (Hev : In (CreateProgram files options) tr) :
  forall key, ~ adjustedKey key -> options !! key = nearest key configs.
Proof.
  intros key Hkey.
  destruct (createProgram_event env fuel tr outcome files options Hrun Hev)
    as (loaded & Hload & ->).
  rewrite adjustOptions_other.
  - apply (chain_loads env tsconfig configs (Some loaded) Hchain).
    now exists fuel.
  - intros ->. apply Hkey. now left.
  - intros ->. apply Hkey. right. now left.
  - intros ->. apply Hkey. right. now right.
Qed.

(** X6. When the docs directory cannot be ensured, the run stops there: no
    markdown file and no manifest is requested, the error of
    [ensureDirSync] is reported and the exit status is 1. *)
Theorem run_stops_when_docs_directory_fails (env : Env) (fuel : nat)
    (tr0 : list Event) (program : Program) (apis : list ApiInstance)
    (docs : list ApiDoc) (e : JsError)
    (Hdisc : discover env fuel [] = (tr0, Returned (program, apis)))
    (Hbuild : buildDocs env program apis = inr docs)
    (Hdir : ensureDirSync env (docsDir env) = Some e) :
  run env fuel =
    Some (mkProcessResult
            (tr0 ++ [EnsureDirSync (docsDir env);
                     ConsoleError (report e); Exit 1]) 1) /\
  (forall result, run env fuel = Some result ->
     writeFileRequests (events result) = [] /\
     writeFileSyncRequests (events result) = []).
Proof.
  assert (Hrun : run env fuel =
    Some (mkProcessResult
            (tr0 ++ [EnsureDirSync (docsDir env);
                     ConsoleError (report e); Exit 1]) 1)).
  { unfold run. rewrite (run_after_discover env fuel tr0 program apis Hdisc).
    rewrite generate_cases, Hbuild, Hdir. cbn beta iota zeta.
    now rewrite <- app_assoc. }
  split; [exact Hrun|].
  intros result Hres. rewrite Hrun in Hres. injection Hres as <-.
  cbn [events].
  rewrite writeFileRequests_app, writeFileSyncRequests_app.
  destruct (discover_requests env fuel tr0 _ Hdisc) as [-> ->].
  now split.
Qed.

(** X7. When awaiting the markdown writes is rejected, every markdown
    write has been requested, the manifest is not, the rejection is
    reported and the exit status is 1. *)
Theorem run_skips_manifest_when_a_write_fails (env : Env) (fuel : nat)
    (tr0 : list Event) (program : Program) (apis : list ApiInstance)
    (docs : list ApiDoc) (e : JsError)
    (Hdisc : discover env fuel [] = (tr0, Returned (program, apis)))
    (Hbuild : buildDocs env program apis = inr docs)
    (Hdir : ensureDirSync env (docsDir env) = None)
    (Hwrites : awaitWrites env (docWrites env docs) = Some e) :
  exists result,
    run env fuel = Some result /\
    exitStatus result = 1%Z /\
    writeFileRequests (events result) = docWrites env docs /\
    writeFileSyncRequests (events result) = [] /\
    exists before,
      events result = before ++ [ConsoleError (report e); Exit 1].
Proof.
  eexists. split.
  { unfold run. rewrite (run_after_discover env fuel tr0 program apis Hdisc).
    rewrite generate_cases, Hbuild, Hdir, Hwrites. reflexivity. }
  cbn [events exitStatus]. split; [reflexivity|].
  destruct (discover_requests env fuel tr0 _ Hdisc) as [Hw Hs].
  split; [|split].
  - rewrite !writeFileRequests_app, Hw, writeFileRequests_writeEvents.
    simpl. now rewrite app_nil_r.
  - rewrite !writeFileSyncRequests_app, Hs, writeFileSyncRequests_writeEvents.
    reflexivity.
  - now eexists.
Qed.

(** X8. When discovery finds no exported instance, [toDoc] is not
    consulted: the docs directory is ensured, no markdown write is
    requested, and the manifest written holds the two lines
    [site_name: api-references] and [nav:] alone; with the file system
    answering, the exit status is 0. *)
Theorem run_on_empty_discovery (env : Env) (fuel : nat)
    (tr0 : list Event) (program : Program)
    (Hdisc : discover env fuel [] = (tr0, Returned (program, [])))
    (Hdir : ensureDirSync env (docsDir env) = None)
    (Hwrites : awaitWrites env [] = None)
    (Hsync : writeFileSync env (mkdocsYaml env)
               ("site_name: api-references" +:+ Str.newline +:+ "nav:")
               "utf8" = None) :
  run env fuel =
    Some (mkProcessResult
            (tr0 ++ [EnsureDirSync (docsDir env);
                     WriteFileSync (mkdocsYaml env)
                       ("site_name: api-references" +:+ Str.newline +:+ "nav:")
                       "utf8"]) 0).
Proof.
  unfold run. rewrite (run_after_discover env fuel tr0 program [] Hdisc).
  rewrite generate_cases.
  change (buildDocs env program []) with (@inr JsError _ (@nil ApiDoc)).
  rewrite Hdir. cbn zeta.
  change (docWrites env []) with (@nil (string * string)).
  rewrite Hwrites.
  change (manifest [])
    with ("site_name: api-references" +:+ Str.newline +:+ "nav:").
  rewrite Hsync. cbn beta iota zeta. cbn [writeEvents map].
  now rewrite app_nil_r, <- app_assoc.
Qed.

(** X9. Once the documents are built and the docs directory is in place,
    the markdown writes requested are, up to their order, the writes of
    the documents [toDoc] returned for the discovered calls, one for one:
    there are as many as discovered calls, none is dropped and none is
    added by the sort. *)
Theorem markdown_writes_match_discovered_calls (env : Env) (fuel : nat)
    (tr0 : list Event) (program : Program) (apis : list ApiInstance)
    (docs : list ApiDoc)
    (Hdisc : discover env fuel [] = (tr0, Returned (program, apis)))
    (Hbuild : buildDocs env program apis = inr docs)
    (Hdir : ensureDirSync env (docsDir env) = None) :
  exists tr outcome built,
    main env fuel [] = (tr, outcome) /\
    Forall2 (fun api doc =>
               toDoc env program (rootDir env) (srcDir env) api = inr doc)
            apis built /\
    Permutation (map (fun doc => (docPath env doc, print env doc)) built)
                (writeFileRequests tr) /\
    length (writeFileRequests tr) = length apis.
Proof.
  destruct (main_after_build env fuel tr0 program apis docs Hdisc Hbuild Hdir)
    as (rest & outcome & Hmain & Hrest & _).
  apply buildDocs_returns in Hbuild as (built & Hall & ->).
  assert (Hw : writeFileRequests
                 (tr0 ++ [EnsureDirSync (docsDir env)] ++
                    writeEvents (docWrites env
                      (Ordering.arraySort (Ordering.sortSelector id) built)) ++ rest)
               = docWrites env (Ordering.arraySort (Ordering.sortSelector id) built)).
  { rewrite !writeFileRequests_app, writeFileRequests_writeEvents.
    destruct (discover_requests env fuel tr0 _ Hdisc) as [-> _].
    destruct Hrest as [-> | ->]; simpl; now rewrite app_nil_r. }
  eexists _, outcome, built. split; [exact Hmain|]. split; [exact Hall|].
  rewrite Hw. unfold docWrites. split.
  - apply Permutation_map. apply arraySort_perm.
  - rewrite length_map.
    pose proof (Permutation_length (arraySort_perm Ordering.lower id built))
      as Hlen.
    change (Ordering.sortSelectorWith Ordering.lower id)
      with (Ordering.sortSelector (T := ApiDoc) id) in Hlen.
    rewrite <- Hlen. symmetry. exact (Forall2_length _ _ _ Hall).
Qed.

(** X10. The console report and the exit are the last two events of a
    failed run and occur nowhere else: [main] itself never writes to the
    console and never ends the process. *)
Theorem report_only_at_the_end (env : Env) (fuel : nat)
    (result : ProcessResult) (Hrun : run env fuel = Some result) :
  exists tr,
    Forall (fun ev => isReport ev = false) tr /\
    ((exitStatus result = 0%Z /\ events result = tr) \/
     (exitStatus result = 1%Z /\
      exists error,
        events result = tr ++ [ConsoleError (report error); Exit 1])).
Proof.
  unfold run in Hrun.
  destruct (main env fuel []) as [tr [[]|error|]] eqn:Hmain;
    [| |discriminate]; injection Hrun as <-; exists tr;
    (split; [exact (main_no_report env fuel tr _ Hmain)|]).
  - left. now split.
  - right. split; [reflexivity|]. now exists error.
Qed.

(** * Further properties of the paths of a run *)

Section WorkingDirectory.

Lemma resolve_from_ignores_cwd args : forall acc cwd1 cwd2,
  (exists a, In a args /\ Path.isAbsolute a = true) ->
  Path.resolve_from args cwd1 acc = Path.resolve_from args cwd2 acc.
Proof.
  induction args as [|b args IH]; intros acc cwd1 cwd2 (a & Hin & Ha).
  - destruct Hin.
  - simpl. destruct (String.eqb b "") eqn:Hb.
    + apply IH. exists a. split; [|assumption].
      destruct Hin as [->|Hin]; [|assumption].
      apply String.eqb_eq in Hb. subst a. discriminate.
    + destruct (Path.isAbsolute b) eqn:Hab; [reflexivity|].
      apply IH. exists a. split; [|assumption].
      destruct Hin as [->|Hin]; [congruence|assumption].
Qed.

Lemma resolve_ignores_cwd cwd1 cwd2 args a :
  In a args -> Path.isAbsolute a = true ->
  Path.resolve cwd1 args = Path.resolve cwd2 args.
Proof.
  intros Hin Ha. unfold Path.resolve.
  rewrite (resolve_from_ignores_cwd (rev args) "" cwd1 cwd2); [reflexivity|].
  exists a. split; [now apply in_rev in Hin|assumption].
Qed.

End WorkingDirectory.

(** X11. With an absolute [__dirname], every path of a run (the root
    directory, the source directory, the entry point, the output
    directory, the docs directory and the manifest) is fixed by
    [__dirname] alone: the working directory the process was started in
    plays no part. *)
Theorem run_paths_ignore_working_directory (env1 env2 : Env)
    (Hsame : dirname__ env1 = dirname__ env2)
    (Habs : Path.isAbsolute (dirname__ env1) = true) :
  rootDir env1 = rootDir env2 /\
  srcDir env1 = srcDir env2 /\
  entrypoint env1 = entrypoint env2 /\
  apiRefsDir env1 = apiRefsDir env2 /\
  docsDir env1 = docsDir env2 /\
  mkdocsYaml env1 = mkdocsYaml env2.
Proof.
  assert (Hroot : rootDir env1 = rootDir env2).
  { unfold rootDir. rewrite <- Hsame.
    apply (resolve_ignores_cwd _ _ _ (dirname__ env1)); [now left|assumption]. }
  assert (Hrabs : Path.isAbsolute (rootDir env1) = true).
  { unfold rootDir.
    apply (resolve_absolute _ _ (dirname__ env1)); [now left|assumption]. }
  assert (Hsrc : srcDir env1 = srcDir env2).
  { unfold srcDir. rewrite <- Hroot.
    apply (resolve_ignores_cwd _ _ _ (rootDir env1)); [now left|assumption]. }
  assert (Hapi : apiRefsDir env1 = apiRefsDir env2).
  { unfold apiRefsDir. rewrite <- Hroot.
    apply (resolve_ignores_cwd _ _ _ (rootDir env1)); [now left|assumption]. }
  split; [exact Hroot|]. split; [exact Hsrc|]. split; [|split; [exact Hapi|split]].
  - unfold entrypoint. rewrite <- Hsrc.
    apply (resolve_ignores_cwd _ _ _ (srcDir env1)); [now left|].
    unfold srcDir.
    apply (resolve_absolute _ _ (rootDir env1)); [now left|assumption].
  - unfold docsDir. now rewrite Hroot, Hapi.
  - unfold mkdocsYaml. rewrite <- Hapi.
    apply (resolve_ignores_cwd _ _ _ (apiRefsDir env1)); [now left|].
    now apply apiRefsDir_absolute.
Qed.

(** * Further properties of the parent path *)

Section ParentPath.

Lemma chars_append (s t : string) :
  list_ascii_of_string (s +:+ t) =
  list_ascii_of_string s ++ list_ascii_of_string t.
Proof.
  induction s as [|c s IH]; [reflexivity|].
  rewrite append_cons. simpl. now rewrite IH.
Qed.

Lemma chars_without_slash (s : string) :
  Str.has_slash s = false ->
  Forall (fun c => Ascii.eqb c Str.slash = false) (list_ascii_of_string s).
Proof.
  induction s as [|c s IH]; simpl; [constructor|].
  destruct (Ascii.eqb c Str.slash) eqn:Hc; [discriminate|].
  simpl. intros Hs. constructor; [assumption|now apply IH].
Qed.

(** Scanning from the end over a separator-free name stops at the
    separator in front of it. *)
Lemma drop_last_segment_name name rest : forall matched,
  name <> [] -> rest <> [] ->
  Forall (fun c => Ascii.eqb c Str.slash = false) name ->
  Path.drop_last_segment (name ++ Str.slash :: rest) matched = Some rest.
Proof.
  induction name as [|c name IH]; intros matched Hne Hrest Hall; [contradiction|].
  inversion Hall as [|? ? Hc Hall']; subst.
  destruct name as [|c' name].
  - simpl. rewrite Hc. destruct rest as [|r rest]; [contradiction|].
    reflexivity.
  - change ((c :: c' :: name) ++ Str.slash :: rest)
      with (c :: ((c' :: name) ++ Str.slash :: rest)).
    change (Path.drop_last_segment
              (c :: ((c' :: name) ++ Str.slash :: rest)) matched)
      with (if Ascii.eqb c Str.slash
            then if matched
                 then Path.drop_last_segment
                        ((c' :: name) ++ Str.slash :: rest) true
                 else Some ((c' :: name) ++ Str.slash :: rest)
            else Path.drop_last_segment
                   ((c' :: name) ++ Str.slash :: rest) false).
    rewrite Hc. apply IH; [discriminate|assumption|assumption].
Qed.

(** The directory of a file directly below [dir]. *)
Lemma dirname_child (dir file : string) :
  dir <> "" -> dir <> "/" ->
  Str.has_slash file = false -> file <> "" ->
  Path.dirname (dir +:+ "/" +:+ file) = dir.
Proof.
  intros Hdir Hroot Hfile Hne. unfold Path.dirname.
  assert (Hpath : dir +:+ "/" +:+ file <> "").
  { intros H. apply append_eq_empty in H. discriminate. }
  apply String.eqb_neq in Hpath. rewrite Hpath.
  rewrite (isAbsolute_append dir _ Hdir).
  rewrite !chars_append, !rev_app_distr.
  change (rev (list_ascii_of_string "/")) with [Str.slash].
  rewrite <- app_assoc.
  change ([Str.slash] ++ rev (list_ascii_of_string dir))
    with (Str.slash :: rev (list_ascii_of_string dir)).
  rewrite (drop_last_segment_name (rev (list_ascii_of_string file))
             (rev (list_ascii_of_string dir)) true).
  - assert (Hback : string_of_list_ascii
                      (rev (rev (list_ascii_of_string dir))) = dir).
    { now rewrite rev_involutive, string_of_list_ascii_of_string. }
    destruct dir as [|c [|c' dir]]; [contradiction| |].
    + simpl. destruct (Ascii.eqb c Str.slash) eqn:Hc; [|reflexivity].
      apply Ascii.eqb_eq in Hc. subst c. contradiction.
    + destruct (rev (list_ascii_of_string (String c (String c' dir))))
        as [|x [|y l]] eqn:Hrev; try exact Hback.
      apply (f_equal (@length ascii)) in Hrev.
      rewrite length_rev in Hrev. simpl in Hrev. lia.
  - destruct file as [|c file]; [contradiction|].
    simpl. intros H. apply app_eq_nil in H as [_ H]. discriminate.
  - destruct dir as [|c dir]; [contradiction|].
    simpl. intros H. apply app_eq_nil in H as [_ H]. discriminate.
  - apply Forall_rev. now apply chars_without_slash.
Qed.

(** A leading [./] does not change where a plain name lands below a
    directory. *)
Lemma join_dot_child (dir p : string) :
  dir <> "" -> plainSegment p ->
  Path.join [dir; "./" +:+ p] = Path.join [dir; p].
Proof.
  intros Hdir Hp. unfold Path.join.
  assert (Hp' : p <> "") by apply Hp.
  rewrite !filter_cons, filter_nil.
  destruct (decide (Is_true (Path.nonempty ("./" +:+ p)))) as [_|Hn];
    [|now elim Hn].
  destruct (decide (Is_true (Path.nonempty p))) as [_|Hn].
  2:{ elim Hn. unfold Path.nonempty. apply String.eqb_neq in Hp'.
      now rewrite Hp'. }
  destruct (decide (Is_true (Path.nonempty dir))) as [_|Hn].
  2:{ elim Hn. unfold Path.nonempty. apply String.eqb_neq in Hdir.
      now rewrite Hdir. }
  change (Str.join "/" [dir; "./" +:+ p]) with (dir +:+ "/" +:+ "./" +:+ p).
  change (Str.join "/" [dir; p]) with (dir +:+ "/" +:+ p).
  replace (dir +:+ "/" +:+ "./" +:+ p)
    with ((dir +:+ "/" +:+ ".") +:+ "/" +:+ p)
    by now rewrite !append_assoc.
  unfold Path.normalize.
  assert (H1 : (dir +:+ "/" +:+ ".") +:+ "/" +:+ p <> "").
  { intros H. apply append_eq_empty in H. discriminate. }
  assert (H2 : dir +:+ "/" +:+ p <> "").
  { intros H. apply append_eq_empty in H. discriminate. }
  apply String.eqb_neq in H1, H2. rewrite H1, H2.
  rewrite (append_assoc dir), !(isAbsolute_append dir) by assumption.
  rewrite <- (append_assoc dir).
  rewrite (endsIn_no_trailing_slash p _ Hp (ends_below p _)).
  rewrite (endsIn_no_trailing_slash p _ Hp (ends_below p dir)).
  assert (Hstr : forall allow,
    Path.normalizeString ((dir +:+ "/" +:+ ".") +:+ "/" +:+ p) allow =
    Path.normalizeString (dir +:+ "/" +:+ p) allow).
  { intros allow. unfold Path.normalizeString. f_equal. f_equal.
    rewrite !parts_child by (reflexivity || apply Hp).
    unfold Path.normalize_stack. rewrite !fold_left_app. reflexivity. }
  now rewrite Hstr.
Qed.

(** The normal form of a path without a trailing separator. *)
Lemma normalize_form (dir : string) :
  dir <> "" -> Str.ends_with_slash dir = false ->
  Path.normalize dir =
    (if String.eqb (Path.normalizeString dir (negb (Path.isAbsolute dir))) ""
     then (if Path.isAbsolute dir then "/" else ".")
     else if Path.isAbsolute dir
          then "/" +:+ Path.normalizeString dir (negb (Path.isAbsolute dir))
          else Path.normalizeString dir (negb (Path.isAbsolute dir))).
Proof.
  intros Hdir Hends. unfold Path.normalize.
  apply String.eqb_neq in Hdir. now rewrite Hdir, Hends.
Qed.

(** A plain name below a directory whose normal form is neither the root
    nor the current directory: the normal form of the directory, a
    separator, the name. *)
Lemma normalize_below (dir p : string) :
  plainSegment p ->
  Str.ends_with_slash dir = false ->
  Path.normalize dir <> "/" -> Path.normalize dir <> "." ->
  Path.normalize (dir +:+ "/" +:+ p) = Path.normalize dir +:+ "/" +:+ p.
Proof.
  intros Hp Hends Hroot Hcur.
  assert (Hdir : dir <> "") by (intros ->; now apply Hcur).
  rewrite (normalize_form dir Hdir Hends) in *.
  set (allow := negb (Path.isAbsolute dir)) in *.
  destruct (String.eqb (Path.normalizeString dir allow) "") eqn:Hnp.
  { destruct (Path.isAbsolute dir); [now elim Hroot|now elim Hcur]. }
  apply String.eqb_neq in Hnp.
  assert (Hstack : rev (Path.normalize_stack allow (Str.parts dir)) <> []).
  { intros Hnil. apply Hnp. unfold Path.normalizeString. now rewrite Hnil. }
  assert (Hbelow : EndsIn p (dir +:+ "/" +:+ p)) by constructor.
  rewrite (normalize_form _ (endsIn_nonempty p _ Hp Hbelow)
             (endsIn_no_trailing_slash p _ Hp Hbelow)).
  rewrite (isAbsolute_append dir _ Hdir). fold allow.
  assert (Hstr : Path.normalizeString (dir +:+ "/" +:+ p) allow =
                 Path.normalizeString dir allow +:+ "/" +:+ p).
  { unfold Path.normalizeString, Str.join.
    rewrite parts_child by apply Hp.
    rewrite normalize_stack_child by assumption.
    change (rev (p :: Path.normalize_stack allow (Str.parts dir)))
      with (rev (Path.normalize_stack allow (Str.parts dir)) ++ [p]).
    now apply concat_snoc. }
  rewrite Hstr.
  assert (Hne : Path.normalizeString dir allow +:+ "/" +:+ p <> "").
  { intros H. apply append_eq_empty in H. discriminate. }
  apply String.eqb_neq in Hne. rewrite Hne.
  destruct (Path.isAbsolute dir); [|reflexivity].
  now rewrite append_assoc.
Qed.


(** The path [loadOptions] goes to for the parent [./p] of a file directly
    below [dir]. *)
Lemma parentPath_below (dir file p : string) :
  Str.has_slash file = false -> file <> "" -> plainSegment p ->
  Str.ends_with_slash dir = false ->
  Path.normalize dir <> "/" -> Path.normalize dir <> "." ->
  parentPath (dir +:+ "/" +:+ file) ("./" +:+ p) =
    Path.normalize dir +:+ "/" +:+ p.
Proof.
  intros Hfile Hne Hp Hends Hroot Hcur.
  assert (Hdir : dir <> "") by (intros ->; now apply Hcur).
  assert (Hdir' : dir <> "/") by (intros ->; now apply Hroot).
  unfold parentPath.
  change (Str.startsWith "." ("./" +:+ p)) with true. cbn iota.
  rewrite (dirname_child dir file Hdir Hdir' Hfile Hne).
  rewrite (join_dot_child dir p Hdir Hp).
  unfold Path.join. rewrite !filter_cons, filter_nil.
  destruct (decide (Is_true (Path.nonempty p))) as [_|Hn].
  2:{ elim Hn. unfold Path.nonempty. destruct Hp as (_ & Hp & _).
      apply String.eqb_neq in Hp. now rewrite Hp. }
  destruct (decide (Is_true (Path.nonempty dir))) as [_|Hn].
  2:{ elim Hn. unfold Path.nonempty. apply String.eqb_neq in Hdir.
      now rewrite Hdir. }
  change (Str.join "/" [dir; p]) with (dir +:+ "/" +:+ p).
  now apply normalize_below.
Qed.



End ParentPath.


(** C9. When the [extends] chain of a configuration ends after [n] links
    (every file on it loads), [loadOptions] returns, with the same result
    for every fuel above [n]: the merge of the [n + 1] configurations of
    the chain, in which each key has the value of the nearest
    configuration that sets it; with a parent ([0 < n]) the result is an
    option set, without one it is the file's own [compilerOptions].
    Nothing detects a cycle: on a chain that never ends the call does not
    return, whatever the fuel. The call recurs on the declared parent
    alone, and for a file directly below a directory a parent [./p] is
    loaded from that directory. *)
Theorem loadOptions_terminates_on_finite_chain (env : Env) (path : string) :
  (forall n, ChainEnds env path n ->
     exists configs result,
       Chain env path configs /\
       length configs = S n /\
       (forall fuel, n < fuel -> loadOptions env fuel path = Returned result) /\
       (forall key, spread result !! key = nearest key configs) /\
       (0 < n -> exists merged, result = Some merged) /\
       (n = 0 ->
        exists config, configs = [config] /\ result = compilerOptions config)) /\
  (forall paths, NeverEnds env paths -> paths path ->
     forall fuel, loadOptions env fuel path = Diverged) /\
  (forall config parent fuel,
     require_ env path = inr config ->
     declaredParent config = Some parent ->
     (loadOptions env (S fuel) path = Diverged <->
      loadOptions env fuel (parentPath path parent) = Diverged)) /\
  (forall dir file p config fuel,
     path = dir +:+ "/" +:+ file ->
     Str.has_slash file = false -> file <> "" -> plainSegment p ->
     Str.ends_with_slash dir = false ->
     Path.normalize dir <> "/" -> Path.normalize dir <> "." ->
     require_ env path = inr config ->
     declaredParent config = Some ("./" +:+ p) ->
     loadOptions env (S fuel) path =
       match loadOptions env fuel (Path.normalize dir +:+ "/" +:+ p) with
       | Returned parentOptions =>
           Returned (Some (spread2 parentOptions (compilerOptions config)))
       | Thrown e => Thrown e
       | Diverged => Diverged
       end).
Proof.
  split; [|split; [|split]].
  - intros n Hchain. now apply chainEnds_result.
  - intros paths Hclosed Hin fuel. now apply (never_ends_diverges env paths).
  - intros config parent fuel Hreq Hpar.
    rewrite loadOptions_step, Hreq, Hpar.
    destruct (loadOptions env fuel (parentPath path parent)); split; congruence.
  - intros dir file p config fuel -> Hfile Hne Hp Hends Hroot Hcur Hreq Hpar.
    rewrite loadOptions_step, Hreq, Hpar.
    now rewrite (parentPath_below dir file p Hfile Hne Hp Hends Hroot Hcur).
Qed.

(** * The further statements on the sample environments *)

Lemma loadOptions_rethrows_require_failure_witness :
  exists n, forall fuel, n < fuel ->
    loadOptions Scenario.envMissingParent fuel "../../../tsconfig.json" =
      Thrown (Scenario.failure "Cannot find module").
Proof.
  apply (loadOptions_rethrows_require_failure Scenario.envMissingParent).
  apply (breaks_above _ _
           (mkConfig (Some "./missing.json") (Some Sample.rootOptions))
           "./missing.json"); [reflexivity|reflexivity|].
  apply breaks_here. reflexivity.
Defined.

Lemma loadOptions_nearest_definition_wins_witness :
  exists result,
    (forall fuel, 2 <= fuel ->
       loadOptions Sample.env fuel "../../../tsconfig.json" = Returned result) /\
    spread result !! "target" = Some (VStr "esnext") /\
    spread result !! "moduleResolution" = Some (VStr "node") /\
    spread result !! "strict" = None.
Proof.
  destruct (loadOptions_nearest_definition_wins Sample.env
              "../../../tsconfig.json"
              [mkConfig (Some "./tsconfig.base.json") (Some Sample.rootOptions);
               mkConfig None (Some Sample.baseOptions)])
    as (result & Hload & Hkeys & _).
  - apply (chain_next _ _ _ "./tsconfig.base.json"); [reflexivity|reflexivity|].
    apply chain_last; reflexivity.
  - exists result. split; [exact Hload|].
    rewrite !Hkeys. repeat split; reflexivity.
Defined.

Lemma run_reports_unloadable_configuration_witness :
  exists n, forall fuel, n < fuel ->
    run Scenario.envMissingParent fuel =
      Some (mkProcessResult
              [Chdir "/repo/packages/docgen";
               ConsoleError (LogText "Error: Cannot find module");
               Exit 1] 1).
Proof.
  apply (run_reports_unloadable_configuration Scenario.envMissingParent
           (Scenario.failure "Cannot find module")).
  apply (breaks_above _ _
           (mkConfig (Some "./missing.json") (Some Sample.rootOptions))
           "./missing.json"); [reflexivity|reflexivity|].
  apply breaks_here. reflexivity.
Defined.

Lemma run_fails_on_missing_compilerOptions_witness :
  (forall fuel, 0 < fuel ->
     loadOptions Scenario.envBare fuel tsconfig = Returned None) /\
  exists error, forall fuel, 0 < fuel ->
    run Scenario.envBare fuel =
      Some (mkProcessResult
              [Chdir (rootDir Scenario.envBare);
               ConsoleError (report error); Exit 1] 1).
Proof.
  apply (run_fails_on_missing_compilerOptions Scenario.envBare
           (mkConfig None None)); reflexivity.
Defined.

Lemma createProgram_sees_nearest_definition_witness :
  adjustOptions Sample.loadedOptions !! "target" = Some (VStr "esnext") /\
  adjustOptions Sample.loadedOptions !! "strict" = None.
Proof.
  pose proof (createProgram_sees_nearest_definition Sample.env 3
                [mkConfig (Some "./tsconfig.base.json") (Some Sample.rootOptions);
                 mkConfig None (Some Sample.baseOptions)]
                (fst (main Sample.env 3 [])) (snd (main Sample.env 3 []))
                [entrypoint Sample.env] (adjustOptions Sample.loadedOptions))
    as H.
  assert (Hkeys : forall key, ~ adjustedKey key ->
            adjustOptions Sample.loadedOptions !! key =
            nearest key
              [mkConfig (Some "./tsconfig.base.json") (Some Sample.rootOptions);
               mkConfig None (Some Sample.baseOptions)]).
  { apply H.
    - apply (chain_next _ _ _ "./tsconfig.base.json"); [reflexivity|reflexivity|].
      apply chain_last; reflexivity.
    - now destruct (main Sample.env 3 []).
    - vm_compute. right. left. reflexivity. }
  split.
  - rewrite Hkeys; [reflexivity|]. intros [H1|[H1|H1]]; discriminate.
  - rewrite Hkeys; [reflexivity|]. intros [H1|[H1|H1]]; discriminate.
Defined.

Lemma run_stops_when_docs_directory_fails_witness :
  run (Scenario.envFs [Sample.storageApi; Sample.alertApi] true false) 3 =
    Some (mkProcessResult
            (Sample.discovered ++
               [EnsureDirSync "/repo/packages/docgen/dist/docs";
                ConsoleError (LogText "Error: EACCES"); Exit 1]) 1).
Proof.
  apply (run_stops_when_docs_directory_fails
           (Scenario.envFs [Sample.storageApi; Sample.alertApi] true false) 3
           Sample.discovered Sample.program
           [Sample.storageApi; Sample.alertApi]
           [Sample.alertDoc; Sample.storageDoc] (Scenario.failure "EACCES")).
  - vm_compute. reflexivity.
  - reflexivity.
  - reflexivity.
Defined.

Lemma run_skips_manifest_when_a_write_fails_witness :
  exists result,
    run (Scenario.envFs [Sample.storageApi; Sample.alertApi] false true) 3 =
      Some result /\
    exitStatus result = 1%Z /\
    writeFileRequests (events result) =
      [("/repo/packages/docgen/dist/docs/alertApiRef.md", "# alertApiRef");
       ("/repo/packages/docgen/dist/docs/storageApiRef.md", "# storageApiRef")] /\
    writeFileSyncRequests (events result) = [].
Proof.
  destruct (run_skips_manifest_when_a_write_fails
              (Scenario.envFs [Sample.storageApi; Sample.alertApi] false true) 3
              Sample.discovered Sample.program
              [Sample.storageApi; Sample.alertApi]
              [Sample.alertDoc; Sample.storageDoc] (Scenario.failure "ENOSPC"))
    as (result & Hrun & Hstatus & Hwrites & Hsync & _).
  - vm_compute. reflexivity.
  - reflexivity.
  - reflexivity.
  - reflexivity.
  - exists result. split; [exact Hrun|]. split; [exact Hstatus|].
    split; [exact Hwrites|exact Hsync].
Defined.

Lemma run_on_empty_discovery_witness :
  run Scenario.envEmpty 3 =
    Some (mkProcessResult
            (Sample.discovered ++
               [EnsureDirSync "/repo/packages/docgen/dist/docs";
                WriteFileSync "/repo/packages/docgen/dist/mkdocs.yml"
                  ("site_name: api-references" +:+ Str.newline +:+ "nav:")
                  "utf8"]) 0).
Proof.
  apply (run_on_empty_discovery Scenario.envEmpty 3 Sample.discovered
           Sample.program).
  - vm_compute. reflexivity.
  - reflexivity.
  - reflexivity.
  - reflexivity.
Defined.

Lemma markdown_writes_match_discovered_calls_witness :
  exists tr outcome built,
    main Sample.env 3 [] = (tr, outcome) /\
    Forall2 (fun api doc => Sample.generator api = inr doc)
            [Sample.storageApi; Sample.alertApi] built /\
    length (writeFileRequests tr) = 2.
Proof.
  destruct (markdown_writes_match_discovered_calls Sample.env 3
              Sample.discovered Sample.program
              [Sample.storageApi; Sample.alertApi]
              [Sample.alertDoc; Sample.storageDoc])
    as (tr & outcome & built & Hmain & Hall & _ & Hlen).
  - vm_compute. reflexivity.
  - reflexivity.
  - reflexivity.
  - exists tr, outcome, built. split; [exact Hmain|]. split; [exact Hall|exact Hlen].
Defined.

Lemma report_only_at_the_end_witness :
  exists tr,
    Forall (fun ev => isReport ev = false) tr /\
    exists error,
      Sample.discovered ++
        [ConsoleError
           (report (docGenerationError Sample.envBroken
                      Sample.brokenApi Sample.brokenCause));
         Exit 1] =
      tr ++ [ConsoleError (report error); Exit 1].
Proof.
  destruct (report_only_at_the_end Sample.envBroken 3
              (mkProcessResult
                 (Sample.discovered ++
                    [ConsoleError
                       (report (docGenerationError Sample.envBroken
                                  Sample.brokenApi Sample.brokenCause));
                     Exit 1]) 1))
    as (tr & Hall & [[Hzero _] | [_ Herror]]).
  - vm_compute. reflexivity.
  - discriminate Hzero.
  - exists tr. split; [exact Hall|exact Herror].
Defined.

Lemma run_paths_ignore_working_directory_witness :
  rootDir Sample.env = rootDir Scenario.envElsewhere /\
  srcDir Sample.env = srcDir Scenario.envElsewhere /\
  entrypoint Sample.env = entrypoint Scenario.envElsewhere /\
  apiRefsDir Sample.env = apiRefsDir Scenario.envElsewhere /\
  docsDir Sample.env = docsDir Scenario.envElsewhere /\
  mkdocsYaml Sample.env = mkdocsYaml Scenario.envElsewhere.
Proof.
  apply (run_paths_ignore_working_directory Sample.env Scenario.envElsewhere);
    reflexivity.
Defined.



Lemma loadOptions_terminates_on_finite_chain_witness :
  (exists result,
     (forall fuel, 1 < fuel ->
        loadOptions Sample.env fuel "../../../tsconfig.json" = Returned result) /\
     spread result !! "target" = Some (VStr "esnext") /\
     spread result !! "moduleResolution" = Some (VStr "node") /\
     spread result !! "strict" = None) /\
  (forall fuel, loadOptions Sample.env fuel "loop.json" = Diverged).
Proof.
  split.
  - destruct (proj1 (loadOptions_terminates_on_finite_chain Sample.env
                       "../../../tsconfig.json") 1)
      as (configs & result & _ & _ & Hload & _).
    + apply (chain_link Sample.env "../../../tsconfig.json"
               (mkConfig (Some "./tsconfig.base.json") (Some Sample.rootOptions))
               "./tsconfig.base.json" 0); [reflexivity|reflexivity|].
      apply (chain_root Sample.env _ (mkConfig None (Some Sample.baseOptions)));
        reflexivity.
    + exists result. split; [exact Hload|].
      pose proof (Hload 2 (le_n 2)) as H2.
      change (loadOptions Sample.env 2 "../../../tsconfig.json")
        with (Returned (Some Sample.loadedOptions)) in H2.
      injection H2 as <-. repeat split; reflexivity.
  - apply (proj1 (proj2 (loadOptions_terminates_on_finite_chain Sample.env
                           "loop.json")) (fun path => path = "loop.json"));
      [|reflexivity].
    intros path ->. exists (mkConfig (Some "loop.json") None), "loop.json".
    repeat split; reflexivity.
Defined.
